(** * Two-population ring attractor: a shallow embedding of
      [src/TwoPopulationSimulation.py]

    Conventions of the embedding.

    - A Python/NumPy float is a real number of the Standard Library ([R]);
      there is no NaN, no infinity and no rounding.  [x / 0] on NumPy arrays
      (which only warns) is whatever [Rdiv] gives; a division of two Python
      scalars by zero raises [ZeroDivisionError] and is modelled as such.
    - One quotient keeps its rounding: [T / delta_t], which [int] truncates
      to the number of steps.  Truncation is not continuous, so that the
      last bit of the quotient decides the number of rows; the quotient as
      the machine rounds it is a parameter ([fdiv]).
    - A 1-D array is a [list R], a 2-D array a list of rows.
    - An exception is a value of [exn]; code that may raise returns a
      [result].  Code that draws random numbers threads the generator state
      explicitly ([M]).
    - The activation function [g] (module [simulation]), the two sampling
      primitives of [np.random] and the rounded quotient are parameters of
      the development ([externals]). *)

From Stdlib Require Import Reals Lra Lia List ZArith Bool.
Import ListNotations.
Open Scope R_scope.

(** ** Exceptions and results *)

Inductive exn : Set :=
| ValueError
| IndexError
| ZeroDivisionError
| TypeError.

Inductive result (A : Type) : Type :=
| Ok (a : A)
| Raise (e : exn).
Arguments Ok {A} a.
Arguments Raise {A} e.

Definition rbind {A B} (c : result A) (k : A -> result B) : result B :=
  match c with
  | Ok a => k a
  | Raise e => Raise e
  end.

Notation "'let?' x ':=' c 'in' k" := (rbind c (fun x => k))
  (at level 10, x pattern, c at level 100, k at level 200).

(** ** Arrays *)

Abbreviation vec := (list R).
Abbreviation matrix := (list (list R)).

Fixpoint zip_with (op : R -> R -> R) (a b : vec) : vec :=
  match a, b with
  | x :: a', y :: b' => op x y :: zip_with op a' b'
  | _, _ => []
  end.

(** NumPy broadcasting of a binary operator on two 1-D arrays: equal shapes
    combine pointwise, a one-element array is stretched, anything else is a
    [ValueError]. *)
Definition broadcast (op : R -> R -> R) (a b : vec) : result vec :=
  if (length a =? length b)%nat then Ok (zip_with op a b)
  else match a, b with
       | [x], _ => Ok (map (op x) b)
       | _, [y] => Ok (map (fun x => op x y) a)
       | _, _ => Raise ValueError
       end.

(** array (op) scalar and scalar (op) array *)
Definition vscale (c : R) (a : vec) : vec := map (fun x => c * x) a.
Definition vtimes (a : vec) (c : R) : vec := map (fun x => x * c) a.
Definition vshift (a : vec) (c : R) : vec := map (fun x => x + c) a.
Definition vsub_scalar (a : vec) (c : R) : vec := map (fun x => x - c) a.
Definition vdiv_scalar (a : vec) (c : R) : vec := map (fun x => x / c) a.
Definition vneg (a : vec) : vec := map Ropp a.

Definition vsum (a : vec) : R := fold_right Rplus 0 a.

(** [np.mean] of a 1-D array *)
Definition np_mean (a : vec) : R := vsum a / INR (length a).

(** [a[i]] for a non-negative index *)
Definition getitem {A} (a : list A) (i : nat) : result A :=
  match nth_error a i with
  | Some v => Ok v
  | None => Raise IndexError
  end.

Fixpoint replace_nth {A} (a : list A) (i : nat) (v : A) : list A :=
  match a, i with
  | [], _ => []
  | _ :: a', O => v :: a'
  | x :: a', S j => x :: replace_nth a' j v
  end.

(** [m[i] = v] (also written [m[i, :] = v]): the row index must exist and
    [v] must broadcast to the row's shape. *)
Definition setrow (m : matrix) (i : nat) (v : vec) : result matrix :=
  match nth_error m i with
  | None => Raise IndexError
  | Some old =>
      if (length v =? length old)%nat then Ok (replace_nth m i v)
      else match v with
           | [c] => Ok (replace_nth m i (repeat c (length old)))
           | _ => Raise ValueError
           end
  end.

(** [np.zeros((k, n))] *)
Definition np_zeros (k n : Z) : result matrix :=
  if ((k <? 0) || (n <? 0))%Z then Raise ValueError
  else Ok (repeat (repeat 0 (Z.to_nat n)) (Z.to_nat k)).

Definition set_last (a : vec) (v : R) : vec :=
  match a with
  | [] => []
  | _ => removelast a ++ [v]
  end.

(** [np.linspace(start, stop, num)] with the default [endpoint=True] *)
Definition np_linspace (start stop : R) (num : Z) : result vec :=
  if (num <? 0)%Z then Raise ValueError
  else
    let div := (num - 1)%Z in
    let delta := stop - start in
    let y := map INR (seq 0 (Z.to_nat num)) in
    let y := if (0 <? div)%Z then vtimes y (delta / IZR div)
             else vtimes y delta in
    let y := vshift y start in
    Ok (if (1 <? num)%Z then set_last y stop else y).

(** ** Python scalars *)

(** [a / b] on two Python numbers *)
Definition py_div (a b : R) : result R :=
  if Req_dec_T b 0 then Raise ZeroDivisionError else Ok (a / b).

(** [int(x)]: truncation toward zero *)
Definition py_int (x : R) : Z :=
  if Rle_dec 0 x then Int_part x else (- Int_part (- x))%Z.

(** [lo <= t < hi] *)
Definition in_window (lo t hi : R) : bool :=
  if Rle_dec lo t then (if Rlt_dec t hi then true else false) else false.

(** ** The simulation object *)

(** The attributes set by [__init__].  [R_] is the attribute [R]. *)
Record sim : Type := {
  N : Z;
  delta_t : R;
  tau : R;
  T : R;
  R_ : R;
  r_0 : R;
  alpha : R;
  beta : R;
  J : R;
  theta : R;
  I_ext : bool;
  I0 : R;
  J_head : R;
  w_head : option vec;
  I_head : vec
}.

(** What [__init__] reads of a head population: its positions [x] and its
    spike array [s], one row per time step. *)
Record population : Type := {
  pop_x : vec;
  pop_s : matrix
}.

(** The attributes set by [simulation]. *)
Record arrays : Type := {
  hL : matrix; rL : matrix; sL : matrix;
  hR : matrix; rR : matrix; sR : matrix;
  xL : vec; xR : vec
}.

Fixpoint rmap {A B} (f : A -> result B) (l : list A) : result (list B) :=
  match l with
  | [] => Ok []
  | a :: l' =>
      let? b := f a in
      let? bs := rmap f l' in
      Ok (b :: bs)
  end.

(** [J_head * np.mean(s / delta_t * w, axis=1)] *)
Definition head_drive (J_head delta_t : R) (s : matrix) (w : vec)
  : result vec :=
  let? prod := rmap (fun row => broadcast Rmult (vdiv_scalar row delta_t) w) s in
  Ok (vscale J_head (map np_mean prod)).

(** [__init__]; the selector [x] is a boolean. *)
Definition init (N : Z) (delta_t tau T R_ r_0 alpha beta J theta I0 : R)
    (I_ext : bool) (J_head : R) (head_population : option population)
    (x : bool) : result sim :=
  let mk := Build_sim N delta_t tau T R_ r_0 alpha beta J theta I_ext I0 J_head in
  match head_population with
  | Some hp =>
      if x then
        let w_head := map cos (pop_x hp) in
        let? I_head := head_drive J_head delta_t (pop_s hp) w_head in
        Ok (mk (Some w_head) I_head)
      else
        let w_head := map sin (pop_x hp) in
        let? I_head := head_drive J_head delta_t (pop_s hp) w_head in
        Ok (mk (Some w_head) I_head)
  | None => Ok (mk None [])
  end.

(** ** What the program takes from outside *)

(** The state of NumPy's global generator, one draw of [uniform(0, 1)], one
    Bernoulli trial of a given (valid) success probability, the activation
    function [g(h, alpha, beta)] on one potential, and the quotient of two
    floats as the machine rounds it.  Of the rounding only this is used: a
    numerator smaller in magnitude than a positive denominator gives a
    quotient smaller than [1] in magnitude (between floats the largest such
    quotient is at most the float just below [1]; on reals that are no
    floats, which the program never divides, [fdiv] is free and may be
    taken exact). *)
Class externals : Type := {
  rng : Type;
  uniform01 : rng -> R * rng;
  bernoulli : R -> rng -> bool * rng;
  g : R -> R -> R -> R;
  fdiv : R -> R -> R;
  fdiv_below_one :
    forall a b : R, 0 < b -> - b < a < b -> -1 < fdiv a b < 1
}.

(** [a / b] on two Python floats, rounded *)
Definition py_fdiv {E : externals} (a b : R) : result R :=
  if Req_dec_T b 0 then Raise ZeroDivisionError else Ok (fdiv a b).

(** [num_steps = int(T / delta_t)], as [initialize_simulation] computes it *)
Definition num_steps {E : externals} (self : sim) : result Z :=
  let? q := py_fdiv (T self) (delta_t self) in
  Ok (py_int q).

Definition initialize_simulation {E : externals} (self : sim)
  : result (matrix * matrix * matrix) :=
  let? k := num_steps self in
  let? h := np_zeros k (N self) in
  let? k := num_steps self in
  let? r := np_zeros k (N self) in
  let? k := num_steps self in
  let? s := np_zeros k (N self) in
  Ok (h, r, s).

Definition initialize_positions (self : sim) : result vec :=
  np_linspace 0 (2 * PI) (N self).

Definition two_population_recurrent_input (xL xR SL SR : vec) (J theta : R)
  : result (vec * vec) :=
  let? cL := broadcast Rmult (map cos xL) SL in
  let mcos_L := np_mean cL in
  let? cR := broadcast Rmult (map cos xR) SR in
  let mcos_R := np_mean cR in
  let? zL := broadcast Rmult (map sin xL) SL in
  let msin_L := np_mean zL in
  let? zR := broadcast Rmult (map sin xR) SR in
  let msin_R := np_mean zR in
  let? aL := broadcast Rplus
               (vtimes (map cos (vshift xL theta)) (mcos_L + mcos_R))
               (vtimes (map sin (vshift xL theta)) (msin_L + msin_R)) in
  let IL := vscale J aL in
  let? aR := broadcast Rplus
               (vtimes (map cos (vsub_scalar xR theta)) (mcos_L + mcos_R))
               (vtimes (map sin (vsub_scalar xR theta)) (msin_L + msin_R)) in
  let IR := vscale J aR in
  Ok (IL, IR).

Definition external_input (self : sim) (t : R) : R :=
  if in_window 300 t 600 then I0 self else 0.

(** ** Code that draws random numbers *)

Section Simulation.

Context {E : externals}.

Definition M (A : Type) : Type := rng -> result (A * rng).

Definition ret {A} (a : A) : M A := fun k => Ok (a, k).

Definition bind {A B} (c : M A) (f : A -> M B) : M B :=
  fun k =>
    match c k with
    | Ok (a, k') => f a k'
    | Raise e => Raise e
    end.

Definition lift {A} (c : result A) : M A :=
  fun k =>
    match c with
    | Ok a => Ok (a, k)
    | Raise e => Raise e
    end.

Notation "'let*' x ':=' c 'in' f" := (bind c (fun x => f))
  (at level 10, x pattern, c at level 100, f at level 200).

Definition spike (b : bool) : R := if b then 1 else 0.

Definition valid_probability (p : R) : bool :=
  if Rle_dec 0 p then (if Rle_dec p 1 then true else false) else false.

Fixpoint bernoulli_trials (ps : vec) (k : rng) : vec * rng :=
  match ps with
  | [] => ([], k)
  | p :: ps' =>
      let (b, k1) := bernoulli p k in
      let (bs, k2) := bernoulli_trials ps' k1 in
      (spike b :: bs, k2)
  end.

(** [np.random.binomial(1, p)] for an array [p]: every entry is checked
    before anything is drawn. *)
Definition np_random_binomial (ps : vec) : M vec :=
  fun k =>
    if forallb valid_probability ps then Ok (bernoulli_trials ps k)
    else Raise ValueError.

Fixpoint uniform_draws (n : nat) (k : rng) : vec * rng :=
  match n with
  | O => ([], k)
  | S n' =>
      let (u, k1) := uniform01 k in
      let (us, k2) := uniform_draws n' k1 in
      (u :: us, k2)
  end.

(** [np.random.uniform(0, 1, n)] *)
Definition np_random_uniform (n : Z) : M vec :=
  fun k =>
    if (n <? 0)%Z then Raise ValueError
    else Ok (uniform_draws (Z.to_nat n) k).

Definition uniform_voltage (self : sim) : M vec :=
  np_random_uniform (N self).

Definition centered_voltage (self : sim) : M vec :=
  let* initial_voltage := lift (np_linspace 0 1 (N self)) in
  let initial_voltage :=
    map (fun u => exp (-0.5 * ((u - 0.5) / 0.05) ^ 2)) initial_voltage in
  ret initial_voltage.

(** What can be passed as [initial_voltage]: the plain function
    [uniform_voltage] found in the class body (it takes [self]), a method
    bound to an instance, or any other callable of no argument. *)
Inductive callable : Type :=
| Function_uniform_voltage
| Method_uniform_voltage (obj : sim)
| Method_centered_voltage (obj : sim)
| Callable0 (f : M vec).

(** [initial_voltage()] *)
Definition call0 (f : callable) : M vec :=
  match f with
  | Function_uniform_voltage => lift (Raise TypeError)
  | Method_uniform_voltage obj => uniform_voltage obj
  | Method_centered_voltage obj => centered_voltage obj
  | Callable0 f => f
  end.

(** [r_0 * g(h, alpha, beta)] on an array [h] *)
Definition rate (self : sim) (h : vec) : vec :=
  vscale (r_0 self) (map (fun v => g v (alpha self) (beta self)) h).

Definition first_step_update (self : sim) (initial_voltage : callable)
  : M (vec * vec * vec) :=
  let* h0 := call0 initial_voltage in
  let r0 := rate self h0 in
  let* s0 := np_random_binomial (vtimes r0 (delta_t self)) in
  ret (h0, r0, s0).

Definition update (self : sim) (a : arrays) (t : nat) (IL IR : vec)
  : M arrays :=
  let* ht := lift (getitem (hL a) t) in
  let* c := lift (py_div (delta_t self) (tau self)) in
  let* ht' := lift (getitem (hL a) t) in
  let* d := lift (broadcast Rplus (vneg ht') (vscale (R_ self) IL)) in
  let* hnew := lift (broadcast Rplus ht (vscale c d)) in
  let* hL := lift (setrow (hL a) (S t) hnew) in
  let* h1 := lift (getitem hL (S t)) in
  let* rL := lift (setrow (rL a) (S t) (rate self h1)) in
  let* r1 := lift (getitem rL (S t)) in
  let* snew := np_random_binomial (vtimes r1 (delta_t self)) in
  let* sL := lift (setrow (sL a) (S t) snew) in
  let* ht := lift (getitem (hR a) t) in
  let* c := lift (py_div (delta_t self) (tau self)) in
  let* ht' := lift (getitem (hR a) t) in
  let* d := lift (broadcast Rplus (vneg ht') (vscale (R_ self) IR)) in
  let* hnew := lift (broadcast Rplus ht (vscale c d)) in
  let* hR := lift (setrow (hR a) (S t) hnew) in
  let* h1 := lift (getitem hR (S t)) in
  let* rR := lift (setrow (rR a) (S t) (rate self h1)) in
  let* r1 := lift (getitem rR (S t)) in
  let* snew := np_random_binomial (vtimes r1 (delta_t self)) in
  let* sR := lift (setrow (sR a) (S t) snew) in
  ret (Build_arrays hL rL sL hR rR sR (xL a) (xR a)).

(** The input currents handed to [update] at step [t]: the part of the loop
    body before the call. *)
Definition step_input (self : sim) (a : arrays) (t : nat)
  : result (vec * vec) :=
  let? sLt := getitem (sL a) t in
  let? sRt := getitem (sR a) t in
  let? (IL, IR) :=
    two_population_recurrent_input (xL a) (xR a)
      (vdiv_scalar sLt (delta_t self)) (vdiv_scalar sRt (delta_t self))
      (J self) (theta self) in
  let '(IL, IR) :=
    if I_ext self then
      let IL := vsub_scalar IL (external_input self (INR t * delta_t self)) in
      let IR := vshift IR (external_input self (INR t * delta_t self)) in
      (IL, IR)
    else (IL, IR) in
  match w_head self with
  | Some _ =>
      let? i := getitem (I_head self) t in
      let IL := vsub_scalar IL i in
      let? i := getitem (I_head self) t in
      let IR := vshift IR i in
      Ok (IL, IR)
  | None => Ok (IL, IR)
  end.

Definition loop_body (self : sim) (a : arrays) (t : nat) : M arrays :=
  let* (IL, IR) := lift (step_input self a t) in
  update self a t IL IR.

(** [for t in ts: body] *)
Fixpoint for_loop (self : sim) (ts : list nat) (a : arrays) : M arrays :=
  match ts with
  | [] => ret a
  | t :: ts' =>
      let* a' := loop_body self a t in
      for_loop self ts' a'
  end.

(** [simulation] up to its [return]: the arrays it leaves on [self]. *)
Definition run (self : sim) (initial_voltage : callable) : M arrays :=
  let* (hL, rL, sL) := lift (initialize_simulation self) in
  let* (hR, rR, sR) := lift (initialize_simulation self) in
  let* xL := lift (initialize_positions self) in
  let* xR := lift (initialize_positions self) in
  let* (h0, r0, s0) := first_step_update self initial_voltage in
  let* hL := lift (setrow hL 0 h0) in
  let* rL := lift (setrow rL 0 r0) in
  let* sL := lift (setrow sL 0 s0) in
  let* (h0, r0, s0) := first_step_update self initial_voltage in
  let* hR := lift (setrow hR 0 h0) in
  let* rR := lift (setrow rR 0 r0) in
  let* sR := lift (setrow sR 0 s0) in
  for_loop self (seq 0 (length hR - 1))
    (Build_arrays hL rL sL hR rR sR xL xR).

(** The statements of [simulation] before its [for] loop, on their own. *)
Definition prologue (self : sim) (initial_voltage : callable) : M arrays :=
  let* (hL, rL, sL) := lift (initialize_simulation self) in
  let* (hR, rR, sR) := lift (initialize_simulation self) in
  let* xL := lift (initialize_positions self) in
  let* xR := lift (initialize_positions self) in
  let* (h0, r0, s0) := first_step_update self initial_voltage in
  let* hL := lift (setrow hL 0 h0) in
  let* rL := lift (setrow rL 0 r0) in
  let* sL := lift (setrow sL 0 s0) in
  let* (h0, r0, s0) := first_step_update self initial_voltage in
  let* hR := lift (setrow hR 0 h0) in
  let* rR := lift (setrow rR 0 r0) in
  let* sR := lift (setrow sR 0 s0) in
  ret (Build_arrays hL rL sL hR rR sR xL xR).

(** [simulation(initial_voltage)]; [None] is the call without argument,
    which takes the default of the signature. *)
Definition simulation (self : sim) (initial_voltage : option callable)
  : M (matrix * matrix * matrix * matrix) :=
  let initial_voltage :=
    match initial_voltage with
    | Some f => f
    | None => Function_uniform_voltage
    end in
  let* a := run self initial_voltage in
  ret (hL a, sL a, hR a, sR a).

End Simulation.

(** ** Vocabulary of the statements *)

(** [m] has shape [(k, n)]. *)
Definition shape (m : matrix) (k n : nat) : Prop :=
  length m = k /\ Forall (fun row => length row = n) m.

(** The explicit Euler rule on one row: [h + delta_t/tau * (-h + R * I)]. *)
Definition euler (self : sim) (h I : vec) : vec :=
  zip_with (fun hi Ii => hi + delta_t self / tau self * (- hi + R_ self * Ii))
    h I.

(** Every array of [a] has [k] rows of [n] entries, over [n] positions. *)
Definition well_shaped (a : arrays) (k n : nat) : Prop :=
  shape (hL a) k n /\ shape (rL a) k n /\ shape (sL a) k n /\
  shape (hR a) k n /\ shape (rR a) k n /\ shape (sR a) k n /\
  length (xL a) = n /\ length (xR a) = n.

(** [a'] has the rows of [a] up to index [b], and the same positions. *)
Definition rows_agree (m m' : matrix) (b : nat) : Prop :=
  forall i, (i <= b)%nat -> nth_error m' i = nth_error m i.

Definition agree (a a' : arrays) (b : nat) : Prop :=
  rows_agree (hL a) (hL a') b /\ rows_agree (rL a) (rL a') b /\
  rows_agree (sL a) (sL a') b /\ rows_agree (hR a) (hR a') b /\
  rows_agree (rR a) (rR a') b /\ rows_agree (sR a) (sR a') b /\
  xL a' = xL a /\ xR a' = xR a.

(** [mean(w(position_i) * rate_i)] over the neurons [i] of one population. *)
Definition weighted_mean (w : R -> R) (x rate : vec) : R :=
  vsum (map (fun i => w (nth i x 0) * nth i rate 0) (seq 0 (length x)))
  / INR (length x).

(** The pooled moments [C] and [S] of the two populations. *)
Definition pooled (w : R -> R) (xL xR rateL rateR : vec) : R :=
  weighted_mean w xL rateL + weighted_mean w xR rateR.

(** The pulse and the head drive that step [t] adds to the recurrent input;
    a disabled modulation counts as [0]. *)
Definition pulse_at (self : sim) (t : nat) : R :=
  if I_ext self then external_input self (INR t * delta_t self) else 0.

Definition head_at (self : sim) (t : nat) : result R :=
  match w_head self with
  | Some _ => getitem (I_head self) t
  | None => Ok 0
  end.

(** The recurrent input of each population, neuron by neuron. *)
Definition recurrent_L (xL xR SL SR : vec) (J theta : R) : vec :=
  map (fun x => J * (cos (x + theta) * pooled cos xL xR SL SR
                     + sin (x + theta) * pooled sin xL xR SL SR)) xL.

Definition recurrent_R (xL xR SL SR : vec) (J theta : R) : vec :=
  map (fun x => J * (cos (x - theta) * pooled cos xL xR SL SR
                     + sin (x - theta) * pooled sin xL xR SL SR)) xR.

Section StepVocabulary.

Context {E : externals}.

(** One population's part of [update], on arrays of the right shape. *)
Definition advance (self : sim) (t : nat) (h r s : matrix) (ht I : vec)
    (k : rng) : result (matrix * matrix * matrix * rng) :=
  if Req_dec_T (tau self) 0 then Raise ZeroDivisionError
  else
    let hnew := euler self ht I in
    let rnew := rate self hnew in
    if forallb valid_probability (vtimes rnew (delta_t self)) then
      let (snew, k') := bernoulli_trials (vtimes rnew (delta_t self)) k in
      Ok (replace_nth h (S t) hnew, replace_nth r (S t) rnew,
          replace_nth s (S t) snew, k')
    else Raise ValueError.

(** Row [t + 1] of the six arrays of [a] is what [update] makes of row [t]
    and of the input currents of step [t]. *)
Definition step_rel (self : sim) (a : arrays) (t : nat) : Prop :=
  exists hLt hRt IL IR,
    nth_error (hL a) t = Some hLt /\ nth_error (hR a) t = Some hRt /\
    step_input self a t = Ok (IL, IR) /\
    length IL = length hLt /\ length IR = length hRt /\
    tau self <> 0 /\
    nth_error (hL a) (S t) = Some (euler self hLt IL) /\
    nth_error (rL a) (S t) = Some (rate self (euler self hLt IL)) /\
    nth_error (hR a) (S t) = Some (euler self hRt IR) /\
    nth_error (rR a) (S t) = Some (rate self (euler self hRt IR)) /\
    exists k0 k1 k2 sLn sRn,
      np_random_binomial
        (vtimes (rate self (euler self hLt IL)) (delta_t self)) k0
        = Ok (sLn, k1) /\
      np_random_binomial
        (vtimes (rate self (euler self hRt IR)) (delta_t self)) k1
        = Ok (sRn, k2) /\
      nth_error (sL a) (S t) = Some sLn /\
      nth_error (sR a) (S t) = Some sRn.

(** The initializer returns, whatever the generator state, one potential
    per neuron. *)
Definition initializer_ok (self : sim) (f : callable) : Prop :=
  forall k, exists h0 k',
    call0 f k = Ok (h0, k') /\ length h0 = Z.to_nat (N self).

(** Every spike probability [r_0 * g(h) * delta_t] is a probability. *)
Definition probabilities_ok (self : sim) : Prop :=
  forall h,
    valid_probability (r_0 self * g h (alpha self) (beta self) * delta_t self)
    = true.

End StepVocabulary.

(** What [m[i] = v] writes into a row of [n] entries: [v] itself, or its
    single entry stretched over the row. *)
Definition as_row (n : nat) (v : vec) : vec :=
  if (length v =? n)%nat then v
  else match v with
       | [c] => repeat c n
       | _ => v
       end.

(** The object [self] with its attribute [I0], or [J_head], set to [v]. *)
Definition with_I0 (self : sim) (v : R) : sim :=
  Build_sim (N self) (delta_t self) (tau self) (T self) (R_ self) (r_0 self)
    (alpha self) (beta self) (J self) (theta self) (I_ext self) v
    (J_head self) (w_head self) (I_head self).

Definition with_J_head (self : sim) (v : R) : sim :=
  Build_sim (N self) (delta_t self) (tau self) (T self) (R_ self) (r_0 self)
    (alpha self) (beta self) (J self) (theta self) (I_ext self) (I0 self)
    v (w_head self) (I_head self).

(** The object [self] with another duration [T]. *)
Definition with_T (self : sim) (v : R) : sim :=
  Build_sim (N self) (delta_t self) (tau self) v (R_ self) (r_0 self)
    (alpha self) (beta self) (J self) (theta self) (I_ext self) (I0 self)
    (J_head self) (w_head self) (I_head self).

(** A spike indicator. *)
Definition binary (v : R) : Prop := v = 0 \/ v = 1.

(** ** Sample configurations *)

(** A toy world: the generator state counts the draws, every uniform draw is
    [1/2], the trials alternate, the activation is the constant [1/2], and
    quotients are exact. *)
#[local] Instance sample_world : externals := {|
  rng := nat;
  uniform01 := fun k => (/ 2, S k);
  bernoulli := fun _ k => (Nat.even k, S k);
  g := fun _ _ _ => / 2;
  fdiv := Rdiv;
  fdiv_below_one := ltac:(
    intros a b Hb Hab;
    assert (Hq : a / b * b = a) by (field; lra);
    split; nra)
|}.

(** Two neurons, three steps of size [1]. *)
Definition sample : sim :=
  Build_sim 2 1 10 3 1 1 1 0 1 0 false 0 1 None [].

Definition pulsed : sim :=
  Build_sim 2 1 10 3 1 1 1 0 1 0 true 5 1 None [].

Definition uncoupled : sim :=
  Build_sim 2 1 10 3 1 1 1 0 0 0 false 0 1 None [].

Definition one_neuron : sim :=
  Build_sim 1 1 10 3 1 1 1 0 1 0 false 0 1 None [].





(** What [__init__] makes of [head] with [J_head = 3], with the cosine
    projection ([x] true) or the sine one, for runs of two steps. *)
Definition head_scaled (x : bool) : sim :=
  Build_sim 2 1 10 2 1 1 1 0 1 0 false 0 3
    (Some (map (if x then cos else sin) [0; 1]))
    (vscale 3
       (map np_mean
          [zip_with Rmult (vdiv_scalar [1; 0] 1)
             (map (if x then cos else sin) [0; 1])])).

Definition zero_tau : sim :=
  Build_sim 2 1 0 3 1 1 1 0 1 0 false 0 1 None [].

(** A rate scale that makes every spike probability [2]. *)
Definition too_fast : sim :=
  Build_sim 2 1 10 3 1 4 1 0 1 0 false 0 1 None [].

(** Half a step of duration. *)
Definition brief : sim :=
  Build_sim 2 1 10 (/ 2) 1 1 1 0 1 0 false 0 1 None [].

(** Arrays of a single row, as a one-step run leaves them. *)
Definition one_row : arrays :=
  Build_arrays [[0; 0]] [[0; 0]] [[0; 0]] [[0; 0]] [[0; 0]] [[0; 0]]
    [0; 2 * PI] [0; 2 * PI].

(** A head population of two neurons recorded for one step. *)
Definition head : population :=
  {| pop_x := [0; 1]; pop_s := [[1; 0]] |}.

(** What [__init__] makes of [head] with the cosine projection, for runs of
    [T] steps of size [1]. *)
Definition headed (T : R) : sim :=
  Build_sim 2 1 10 T 1 1 1 0 1 0 false 0 1
    (Some (map cos (pop_x head)))
    (vscale 1
       (map np_mean
          [zip_with Rmult (vdiv_scalar [1; 0] 1) (map cos (pop_x head))])).

(** ** Lists and arrays *)

Lemma zip_with_length (op : R -> R -> R) (a b : vec) :
  length a = length b -> length (zip_with op a b) = length a.
Proof.
  revert b; induction a as [|x a IH]; intros [|y b] Hl; simpl in *;
    try discriminate; auto.
Qed.

Lemma zip_with_nth (op : R -> R -> R) (a b : vec) (i : nat) (da db d : R) :
  length a = length b -> (i < length a)%nat ->
  nth i (zip_with op a b) d = op (nth i a da) (nth i b db).
Proof.
  revert b i; induction a as [|x a IH]; intros [|y b] i Hl Hi; simpl in *;
    try discriminate; try lia.
  destruct i; [reflexivity|]. apply IH; lia.
Qed.

Lemma broadcast_same (op : R -> R -> R) (a b : vec) :
  length a = length b -> broadcast op a b = Ok (zip_with op a b).
Proof.
  intros Hl. unfold broadcast. now rewrite Hl, Nat.eqb_refl.
Qed.

Lemma replace_nth_length {A} (a : list A) (i : nat) (v : A) :
  length (replace_nth a i v) = length a.
Proof.
  revert i; induction a as [|x a IH]; intros [|i]; simpl; auto.
Qed.

Lemma replace_nth_same {A} (a : list A) (i : nat) (v : A) :
  (i < length a)%nat -> nth_error (replace_nth a i v) i = Some v.
Proof.
  revert i; induction a as [|x a IH]; intros [|i] Hi; simpl in *;
    try lia; auto.
  apply IH; lia.
Qed.

Lemma replace_nth_other {A} (a : list A) (i j : nat) (v : A) :
  i <> j -> nth_error (replace_nth a i v) j = nth_error a j.
Proof.
  revert i j; induction a as [|x a IH]; intros [|i] [|j] Hij; simpl;
    try congruence; auto.
Qed.

Lemma replace_nth_Forall {A} (P : A -> Prop) (a : list A) (i : nat) (v : A) :
  Forall P a -> P v -> Forall P (replace_nth a i v).
Proof.
  intros Ha Hv; revert i; induction Ha as [|x a Hx Ha IH]; intros [|i];
    simpl; auto.
Qed.

Lemma shape_row (m : matrix) (k n i : nat) (row : vec) :
  shape m k n -> nth_error m i = Some row -> length row = n.
Proof.
  intros [_ Hall] Hrow. rewrite Forall_forall in Hall.
  apply Hall. eapply nth_error_In; eauto.
Qed.

Lemma shape_has_row (m : matrix) (k n i : nat) :
  shape m k n -> (i < k)%nat -> exists row, nth_error m i = Some row.
Proof.
  intros [Hk _] Hi. destruct (nth_error m i) eqn:Hrow; eauto.
  apply nth_error_None in Hrow. lia.
Qed.

Lemma shape_replace (m : matrix) (k n i : nat) (v : vec) :
  shape m k n -> length v = n -> shape (replace_nth m i v) k n.
Proof.
  intros [Hk Hall] Hv. split.
  - now rewrite replace_nth_length.
  - now apply replace_nth_Forall.
Qed.

Lemma setrow_shaped (m : matrix) (k n i : nat) (v : vec) :
  shape m k n -> (i < k)%nat -> length v = n ->
  setrow m i v = Ok (replace_nth m i v).
Proof.
  intros Hm Hi Hv. unfold setrow.
  destruct (shape_has_row m k n i Hm Hi) as [old Hold]. rewrite Hold.
  rewrite (shape_row _ _ _ _ _ Hm Hold), Hv, Nat.eqb_refl. reflexivity.
Qed.

Lemma getitem_Some {A} (a : list A) (i : nat) (v : A) :
  nth_error a i = Some v -> getitem a i = Ok v.
Proof. intros Hv. unfold getitem. now rewrite Hv. Qed.

Lemma getitem_short {A} (a : list A) (i : nat) :
  (length a <= i)%nat -> getitem a i = Raise IndexError.
Proof.
  intros Hi. unfold getitem.
  now rewrite (proj2 (nth_error_None a i) Hi).
Qed.

Lemma np_zeros_shape (k n : Z) (m : matrix) :
  np_zeros k n = Ok m -> shape m (Z.to_nat k) (Z.to_nat n).
Proof.
  unfold np_zeros. destruct ((k <? 0) || (n <? 0))%Z; [discriminate|].
  intros Hm; injection Hm as <-. split.
  - apply repeat_length.
  - apply Forall_forall. intros row Hin.
    apply repeat_spec in Hin. subst row. apply repeat_length.
Qed.

Lemma map_fixed (f : R -> R) (l : vec) :
  (forall v, f v = v) -> map f l = l.
Proof.
  intros Hf. induction l as [|v l IH]; simpl; [reflexivity|].
  now rewrite Hf, IH.
Qed.

Lemma zip_with_map_l (op : R -> R -> R) (f : R -> R) (x r : vec) :
  length x = length r ->
  zip_with op (map f x) r =
  map (fun i => op (f (nth i x 0)) (nth i r 0)) (seq 0 (length x)).
Proof.
  intros Hl.
  set (F := fun i : nat => op (f (nth i x 0)) (nth i r 0)).
  apply nth_ext with (d := F 0%nat) (d' := F 0%nat).
  - rewrite zip_with_length; rewrite ?length_map, ?length_seq; auto.
  - intros i Hi.
    rewrite zip_with_length in Hi by (rewrite length_map; auto).
    rewrite length_map in Hi.
    rewrite (zip_with_nth op _ _ i (f 0) 0 (F 0%nat))
      by (rewrite ?length_map; auto).
    rewrite (map_nth f x 0 i), (map_nth F _ 0%nat i).
    rewrite seq_nth by auto. reflexivity.
Qed.

Lemma np_mean_weighted (w : R -> R) (x r : vec) :
  length x = length r ->
  np_mean (zip_with Rmult (map w x) r) = weighted_mean w x r.
Proof.
  intros Hl. unfold np_mean, weighted_mean.
  rewrite zip_with_length by (rewrite length_map; auto).
  rewrite length_map. rewrite zip_with_map_l by auto. reflexivity.
Qed.

Lemma zip_with_two_maps (op f1 f2 : R -> R -> R) (c1 c2 : R) (x : vec) :
  zip_with op (map (fun v => f1 v c1) x) (map (fun v => f2 v c2) x) =
  map (fun v => op (f1 v c1) (f2 v c2)) x.
Proof. induction x as [|v x IH]; simpl; congruence. Qed.

(** The recurrent input on arrays of one common length, neuron by neuron. *)
Lemma recurrent_input_shaped (xL xR SL SR : vec) (J theta : R) (n : nat) :
  length xL = n -> length xR = n -> length SL = n -> length SR = n ->
  two_population_recurrent_input xL xR SL SR J theta =
  Ok (map (fun x => J * (cos (x + theta) * pooled cos xL xR SL SR
                        + sin (x + theta) * pooled sin xL xR SL SR)) xL,
      map (fun x => J * (cos (x - theta) * pooled cos xL xR SL SR
                        + sin (x - theta) * pooled sin xL xR SL SR)) xR).
Proof.
  intros HxL HxR HSL HSR. unfold two_population_recurrent_input, pooled.
  rewrite !broadcast_same by (rewrite ?length_map; congruence). simpl.
  rewrite !np_mean_weighted by congruence.
  unfold vtimes, vshift, vsub_scalar, vscale.
  rewrite !map_map.
  rewrite !broadcast_same by (rewrite !length_map; reflexivity). simpl.
  rewrite (zip_with_two_maps Rplus (fun v c => cos (v + theta) * c)
             (fun v c => sin (v + theta) * c)).
  rewrite (zip_with_two_maps Rplus (fun v c => cos (v - theta) * c)
             (fun v c => sin (v - theta) * c)).
  rewrite !map_map. reflexivity.
Qed.

Lemma euler_fused (self : sim) (h I : vec) :
  zip_with Rplus h
    (vscale (delta_t self / tau self)
       (zip_with Rplus (vneg h) (vscale (R_ self) I))) =
  euler self h I.
Proof.
  unfold euler, vscale, vneg.
  revert I; induction h as [|x h IH]; intros [|y I]; simpl; auto.
  now rewrite IH.
Qed.

Lemma euler_length (self : sim) (h I : vec) :
  length h = length I -> length (euler self h I) = length h.
Proof. apply zip_with_length. Qed.

(** ** The stepping code *)

Section Stepping.

Context {E : externals}.

Lemma bind_lift_Ok {A B} (a : A) (f : A -> M B) (k : rng) :
  bind (lift (Ok a)) f k = f a k.
Proof. reflexivity. Qed.

Lemma bind_lift_Raise {A B} (e : exn) (f : A -> M B) (k : rng) :
  bind (lift (Raise e)) f k = Raise e.
Proof. reflexivity. Qed.

Lemma rate_length (self : sim) (h : vec) :
  length (rate self h) = length h.
Proof. unfold rate, vscale. now rewrite !length_map. Qed.

Lemma vtimes_length (a : vec) (c : R) : length (vtimes a c) = length a.
Proof. apply length_map. Qed.

Lemma bernoulli_trials_length (ps : vec) (k : rng) :
  length (fst (bernoulli_trials ps k)) = length ps.
Proof.
  revert k; induction ps as [|p ps IH]; intros k; simpl; auto.
  destruct (bernoulli p k) as [b k1].
  specialize (IH k1). destruct (bernoulli_trials ps k1) as [bs k2].
  simpl in *. now rewrite IH.
Qed.

Lemma bernoulli_trials_binary (ps : vec) (k : rng) :
  Forall (fun v => v = 0 \/ v = 1) (fst (bernoulli_trials ps k)).
Proof.
  revert k; induction ps as [|p ps IH]; intros k; simpl; auto.
  destruct (bernoulli p k) as [b k1].
  specialize (IH k1). destruct (bernoulli_trials ps k1) as [bs k2].
  simpl in *. constructor; auto. destruct b; simpl; auto.
Qed.

Lemma update_shaped (self : sim) (a : arrays) (t k n : nat) (IL IR : vec)
    (hLt hRt : vec) (k0 : rng) :
  well_shaped a k n -> (S t < k)%nat ->
  length IL = n -> length IR = n ->
  nth_error (hL a) t = Some hLt -> nth_error (hR a) t = Some hRt ->
  update self a t IL IR k0 =
  match advance self t (hL a) (rL a) (sL a) hLt IL k0 with
  | Raise e => Raise e
  | Ok (hL', rL', sL', k1) =>
      match advance self t (hR a) (rR a) (sR a) hRt IR k1 with
      | Raise e => Raise e
      | Ok (hR', rR', sR', k2) =>
          Ok (Build_arrays hL' rL' sL' hR' rR' sR' (xL a) (xR a), k2)
      end
  end.
Proof.
  intros (HhL & HrL & HsL & HhR & HrR & HsR & _ & _) Ht HIL HIR HLt HRt.
  pose proof (shape_row _ _ _ _ _ HhL HLt) as HlL.
  pose proof (shape_row _ _ _ _ _ HhR HRt) as HlR.
  unfold update, advance.
  rewrite !(getitem_Some _ _ _ HLt), !bind_lift_Ok.
  unfold py_div. destruct (Req_dec_T (tau self) 0) as [Htau|Htau];
    [reflexivity|].
  rewrite !bind_lift_Ok.
  rewrite (broadcast_same Rplus (vneg hLt)), bind_lift_Ok
    by (unfold vneg, vscale; rewrite !length_map; congruence).
  rewrite broadcast_same, bind_lift_Ok
    by (unfold vneg, vscale; rewrite length_map, zip_with_length;
        rewrite !length_map; congruence).
  rewrite euler_fused.
  assert (HeL : length (euler self hLt IL) = n)
    by (rewrite euler_length; congruence).
  rewrite (setrow_shaped _ k n), bind_lift_Ok by auto.
  rewrite (getitem_Some _ _ (euler self hLt IL)), bind_lift_Ok
    by (apply replace_nth_same; destruct HhL; lia).
  rewrite (setrow_shaped _ k n), bind_lift_Ok
    by (auto; rewrite rate_length; auto).
  rewrite (getitem_Some _ _ (rate self (euler self hLt IL))), bind_lift_Ok
    by (apply replace_nth_same; destruct HrL; lia).
  unfold bind at 1. unfold np_random_binomial at 1.
  destruct (forallb valid_probability
              (vtimes (rate self (euler self hLt IL)) (delta_t self)));
    [|reflexivity].
  pose proof (bernoulli_trials_length
                (vtimes (rate self (euler self hLt IL)) (delta_t self)) k0)
    as HsnL.
  destruct (bernoulli_trials _ k0) as [sLn k1]. simpl in HsnL.
  rewrite vtimes_length, rate_length in HsnL.
  rewrite (setrow_shaped _ k n), bind_lift_Ok by (auto; congruence).
  rewrite !(getitem_Some _ _ _ HRt), !bind_lift_Ok.
  rewrite (broadcast_same Rplus (vneg hRt)), bind_lift_Ok
    by (unfold vneg, vscale; rewrite !length_map; congruence).
  rewrite broadcast_same, bind_lift_Ok
    by (unfold vneg, vscale; rewrite length_map, zip_with_length;
        rewrite !length_map; congruence).
  rewrite euler_fused.
  assert (HeR : length (euler self hRt IR) = n)
    by (rewrite euler_length; congruence).
  rewrite (setrow_shaped _ k n), bind_lift_Ok by auto.
  rewrite (getitem_Some _ _ (euler self hRt IR)), bind_lift_Ok
    by (apply replace_nth_same; destruct HhR; lia).
  rewrite (setrow_shaped _ k n), bind_lift_Ok
    by (auto; rewrite rate_length; auto).
  rewrite (getitem_Some _ _ (rate self (euler self hRt IR))), bind_lift_Ok
    by (apply replace_nth_same; destruct HrR; lia).
  unfold bind at 1. unfold np_random_binomial at 1.
  destruct (forallb valid_probability
              (vtimes (rate self (euler self hRt IR)) (delta_t self)));
    [|reflexivity].
  pose proof (bernoulli_trials_length
                (vtimes (rate self (euler self hRt IR)) (delta_t self)) k1)
    as HsnR.
  destruct (bernoulli_trials _ k1) as [sRn k2]. simpl in HsnR.
  rewrite vtimes_length, rate_length in HsnR.
  rewrite (setrow_shaped _ k n), bind_lift_Ok by (auto; congruence).
  reflexivity.
Qed.

(** The loop body's input currents on arrays of the right shape: the
    recurrent input, minus (left) or plus (right) the pulse and the head
    drive of the step. *)
Lemma step_input_shaped (self : sim) (a : arrays) (t k n : nat)
    (sLt sRt : vec) :
  well_shaped a k n ->
  nth_error (sL a) t = Some sLt -> nth_error (sR a) t = Some sRt ->
  step_input self a t =
  let SL := vdiv_scalar sLt (delta_t self) in
  let SR := vdiv_scalar sRt (delta_t self) in
  let? i := head_at self t in
  Ok (map (fun v => v - pulse_at self t - i)
        (recurrent_L (xL a) (xR a) SL SR (J self) (theta self)),
      map (fun v => v + pulse_at self t + i)
        (recurrent_R (xL a) (xR a) SL SR (J self) (theta self))).
Proof.
  intros (_ & _ & HsL & _ & _ & HsR & HxL & HxR) HLt HRt.
  pose proof (shape_row _ _ _ _ _ HsL HLt) as HlL.
  pose proof (shape_row _ _ _ _ _ HsR HRt) as HlR.
  unfold step_input.
  rewrite (getitem_Some _ _ _ HLt), (getitem_Some _ _ _ HRt). simpl.
  rewrite (recurrent_input_shaped _ _ _ _ _ _ n)
    by (unfold vdiv_scalar; rewrite ?length_map; auto).
  fold (recurrent_L (xL a) (xR a) (vdiv_scalar sLt (delta_t self))
          (vdiv_scalar sRt (delta_t self)) (J self) (theta self)).
  fold (recurrent_R (xL a) (xR a) (vdiv_scalar sLt (delta_t self))
          (vdiv_scalar sRt (delta_t self)) (J self) (theta self)).
  generalize (recurrent_L (xL a) (xR a) (vdiv_scalar sLt (delta_t self))
                (vdiv_scalar sRt (delta_t self)) (J self) (theta self)).
  generalize (recurrent_R (xL a) (xR a) (vdiv_scalar sLt (delta_t self))
                (vdiv_scalar sRt (delta_t self)) (J self) (theta self)).
  intros recR recL.
  simpl. unfold head_at, pulse_at, vsub_scalar, vshift.
  destruct (I_ext self); destruct (w_head self) as [w|];
    try (destruct (getitem (I_head self) t) as [i|e]; [|reflexivity]);
    simpl; rewrite ?map_map; f_equal; f_equal;
    first [ apply map_ext; intros v; lra
          | symmetry; apply map_fixed; intros v; lra ].
Qed.

Lemma step_input_agree (self : sim) (a a' : arrays) (t : nat) :
  agree a a' t -> step_input self a' t = step_input self a t.
Proof.
  intros (_ & _ & HsL & _ & _ & HsR & HxL & HxR).
  unfold step_input, getitem.
  rewrite (HsL t), (HsR t), HxL, HxR by lia. reflexivity.
Qed.

Lemma step_input_lengths (self : sim) (a : arrays) (t k n : nat)
    (IL IR : vec) :
  well_shaped a k n -> step_input self a t = Ok (IL, IR) ->
  length IL = n /\ length IR = n.
Proof.
  intros Ha Hin.
  assert (exists sLt sRt, nth_error (sL a) t = Some sLt /\
                          nth_error (sR a) t = Some sRt)
    as (sLt & sRt & HLt & HRt).
  { unfold step_input, getitem in Hin.
    destruct (nth_error (sL a) t); [|discriminate].
    destruct (nth_error (sR a) t); [|discriminate]. eauto. }
  rewrite (step_input_shaped self a t k n sLt sRt Ha HLt HRt) in Hin.
  destruct Ha as (_ & _ & _ & _ & _ & _ & HxL & HxR).
  simpl in Hin. destruct (head_at self t); [|discriminate].
  simpl in Hin. injection Hin as <- <-.
  unfold recurrent_L, recurrent_R. now rewrite !length_map.
Qed.

Lemma rows_agree_replace (m : matrix) (t : nat) (v : vec) :
  rows_agree m (replace_nth m (S t) v) t.
Proof. intros i Hi. apply replace_nth_other. lia. Qed.

Lemma agree_refl (a : arrays) (b : nat) : agree a a b.
Proof. repeat split; intros i Hi; reflexivity. Qed.

Lemma agree_trans (a1 a2 a3 : arrays) (b b' : nat) :
  (b <= b')%nat -> agree a1 a2 b -> agree a2 a3 b' -> agree a1 a3 b.
Proof.
  intros Hb (H1 & H2 & H3 & H4 & H5 & H6 & H7 & H8)
         (G1 & G2 & G3 & G4 & G5 & G6 & G7 & G8).
  repeat split; try congruence;
    intros i Hi;
    [ rewrite G1, H1 | rewrite G2, H2 | rewrite G3, H3
    | rewrite G4, H4 | rewrite G5, H5 | rewrite G6, H6 ];
    auto; lia.
Qed.

Lemma step_rel_agree (self : sim) (a a' : arrays) (t : nat) :
  agree a a' (S t) -> step_rel self a t -> step_rel self a' t.
Proof.
  intros Hag (hLt & hRt & IL & IR & H1 & H2 & H3 & H4 & H5 & H6 & H7 & H8
              & H9 & H10 & k0 & k1 & k2 & sLn & sRn & D1 & D2 & D3 & D4).
  assert (Hag' : agree a a' t)
    by (eapply agree_trans; [| apply agree_refl | exact Hag]; lia).
  destruct Hag as (G1 & G2 & G3 & G4 & G5 & G6 & G7 & G8).
  exists hLt, hRt, IL, IR.
  rewrite (step_input_agree self a a' t Hag').
  rewrite !G1, !G2, !G3, !G4, !G5, !G6 by lia.
  repeat (split; [assumption|]).
  exists k0, k1, k2, sLn, sRn. auto.
Qed.

Lemma advance_inv (self : sim) (t k n : nat) (h r s h' r' s' : matrix)
    (ht I : vec) (k0 k1 : rng) :
  shape h k n -> shape r k n -> shape s k n ->
  length ht = n -> length I = n ->
  advance self t h r s ht I k0 = Ok (h', r', s', k1) ->
  tau self <> 0 /\
  h' = replace_nth h (S t) (euler self ht I) /\
  r' = replace_nth r (S t) (rate self (euler self ht I)) /\
  shape h' k n /\ shape r' k n /\ shape s' k n /\
  exists snew,
    np_random_binomial
      (vtimes (rate self (euler self ht I)) (delta_t self)) k0
      = Ok (snew, k1) /\
    s' = replace_nth s (S t) snew.
Proof.
  intros Hh Hr Hs Hht HI. unfold advance, np_random_binomial.
  destruct (Req_dec_T (tau self) 0) as [|Htau]; [discriminate|].
  destruct (forallb valid_probability _); [|discriminate].
  pose proof (bernoulli_trials_length
                (vtimes (rate self (euler self ht I)) (delta_t self)) k0)
    as Hlen.
  destruct (bernoulli_trials _ k0) as [snew k'] eqn:Hdraw. simpl in Hlen.
  rewrite vtimes_length, rate_length, euler_length in Hlen by congruence.
  intros Hok; injection Hok as <- <- <- <-.
  split; [exact Htau|]. split; [reflexivity|]. split; [reflexivity|].
  split; [apply shape_replace; auto; rewrite euler_length; congruence|].
  split; [apply shape_replace; auto;
          rewrite rate_length, euler_length; congruence|].
  split; [apply shape_replace; auto; congruence|].
  exists snew. split; reflexivity.
Qed.

Lemma loop_body_inv (self : sim) (a a' : arrays) (t k n : nat)
    (k0 k1 : rng) :
  well_shaped a k n -> (S t < k)%nat ->
  loop_body self a t k0 = Ok (a', k1) ->
  well_shaped a' k n /\ agree a a' t /\ step_rel self a' t.
Proof.
  intros Ha Ht. unfold loop_body, bind, lift.
  destruct (step_input self a t) as [[IL IR]|e] eqn:Hin; [|discriminate].
  destruct (step_input_lengths self a t k n IL IR Ha Hin) as [HIL HIR].
  pose proof Ha as (HhL & HrL & HsL & HhR & HrR & HsR & HxL & HxR).
  destruct (shape_has_row _ _ _ t HhL) as [hLt HLt]; [lia|].
  destruct (shape_has_row _ _ _ t HhR) as [hRt HRt]; [lia|].
  pose proof (shape_row _ _ _ _ _ HhL HLt) as HlL.
  pose proof (shape_row _ _ _ _ _ HhR HRt) as HlR.
  rewrite (update_shaped self a t k n IL IR hLt hRt k0) by assumption.
  destruct (advance self t (hL a) (rL a) (sL a) hLt IL k0)
    as [[[[hL' rL'] sL'] km]|e] eqn:HadvL; [|discriminate].
  destruct (advance self t (hR a) (rR a) (sR a) hRt IR km)
    as [[[[hR' rR'] sR'] kn]|e] eqn:HadvR; [|discriminate].
  intros Hok; injection Hok as <- <-.
  destruct (advance_inv self t k n _ _ _ _ _ _ _ _ _ _
              HhL HrL HsL HlL HIL HadvL)
    as (Htau & -> & -> & ShL & SrL & SsL & sLn & DL & ->).
  destruct (advance_inv self t k n _ _ _ _ _ _ _ _ _ _
              HhR HrR HsR HlR HIR HadvR)
    as (_ & -> & -> & ShR & SrR & SsR & sRn & DR & ->).
  assert (Hag : agree a
            {| hL := replace_nth (hL a) (S t) (euler self hLt IL);
               rL := replace_nth (rL a) (S t) (rate self (euler self hLt IL));
               sL := replace_nth (sL a) (S t) sLn;
               hR := replace_nth (hR a) (S t) (euler self hRt IR);
               rR := replace_nth (rR a) (S t) (rate self (euler self hRt IR));
               sR := replace_nth (sR a) (S t) sRn;
               xL := xL a; xR := xR a |} t).
  { repeat split; simpl; apply rows_agree_replace. }
  split; [|split].
  - repeat split; simpl; solve [auto | apply ShL | apply SrL | apply SsL
                               | apply ShR | apply SrR | apply SsR].
  - exact Hag.
  - exists hLt, hRt, IL, IR.
    rewrite (step_input_agree self a _ t Hag).
    cbn [hL rL sL hR rR sR xL xR].
    rewrite !replace_nth_other by lia.
    rewrite !replace_nth_same
      by (destruct HhL, HrL, HsL, HhR, HrR, HsR; lia).
    repeat (split; [first [assumption | reflexivity | congruence]|]).
    exists k0, km, kn, sLn, sRn. auto.
Qed.

(** The loop over [t0, t0 + m): shapes are kept, the rows up to [t0] are
    left alone, and every step leaves its row behind. *)
Lemma for_loop_inv (self : sim) (k n m : nat) :
  forall (t0 : nat) (a a' : arrays) (k0 k1 : rng),
    well_shaped a k n -> (t0 + m < k)%nat ->
    for_loop self (seq t0 m) a k0 = Ok (a', k1) ->
    well_shaped a' k n /\ agree a a' t0 /\
    forall t, (t0 <= t < t0 + m)%nat -> step_rel self a' t.
Proof.
  induction m as [|m IH]; intros t0 a a' k0 k1 Ha Hk; simpl.
  - unfold ret. intros Hok; injection Hok as <- <-.
    split; [assumption|]. split; [apply agree_refl|]. intros t Ht; lia.
  - unfold bind at 1.
    destruct (loop_body self a t0 k0) as [[a1 km]|e] eqn:Hbody;
      [|discriminate].
    intros Hloop.
    destruct (loop_body_inv self a a1 t0 k n k0 km Ha ltac:(lia) Hbody)
      as (Ha1 & Hag1 & Hrel1).
    destruct (IH (S t0) a1 a' km k1 Ha1 ltac:(lia) Hloop)
      as (Ha' & Hag' & Hrel').
    split; [assumption|]. split.
    + eapply agree_trans; [|exact Hag1|exact Hag']. lia.
    + intros t Ht. destruct (Nat.eq_dec t t0) as [->|Hne].
      * eapply step_rel_agree; eauto.
      * apply Hrel'. lia.
Qed.

(** ** Initialisation *)

Lemma bind_Ok_inv {A B} (c : M A) (f : A -> M B) (k : rng) (r : B * rng) :
  bind c f k = Ok r -> exists a k', c k = Ok (a, k') /\ f a k' = Ok r.
Proof.
  unfold bind. destruct (c k) as [[a k']|e]; [eauto|discriminate].
Qed.

Lemma lift_Ok_inv {A} (c : result A) (k k' : rng) (a : A) :
  lift c k = Ok (a, k') -> c = Ok a /\ k' = k.
Proof.
  unfold lift. destruct c; [|discriminate].
  intros H; injection H as -> ->. auto.
Qed.

Ltac bind_inv H x :=
  let k := fresh "k" in
  let Hc := fresh "H" x in
  apply bind_Ok_inv in H; destruct H as (x & k & Hc & H);
  try (apply lift_Ok_inv in Hc; destruct Hc as [Hc ->]).

Lemma setrow_inv (m m' : matrix) (i : nat) (v : vec) :
  setrow m i v = Ok m' ->
  exists old w,
    nth_error m i = Some old /\ length w = length old /\
    m' = replace_nth m i w.
Proof.
  unfold setrow. destruct (nth_error m i) as [old|]; [|discriminate].
  destruct (Nat.eqb_spec (length v) (length old)) as [Hl|Hl].
  - intros H; injection H as <-. eauto.
  - destruct v as [|c [|]]; try discriminate.
    intros H; injection H as <-.
    exists old, (repeat c (length old)). rewrite repeat_length. auto.
Qed.

Lemma setrow_shape (m m' : matrix) (i k n : nat) (v : vec) :
  shape m k n -> setrow m i v = Ok m' -> shape m' k n /\ (i < k)%nat.
Proof.
  intros Hm Hset.
  destruct (setrow_inv _ _ _ _ Hset) as (old & w & Hold & Hw & ->).
  split.
  - apply shape_replace; auto.
    rewrite Hw. eapply shape_row; eauto.
  - destruct Hm as [<- _]. apply nth_error_Some. congruence.
Qed.

Lemma set_last_length (a : vec) (v : R) :
  length (set_last a v) = length a.
Proof.
  unfold set_last. destruct a as [|x a]; [reflexivity|].
  rewrite length_app, removelast_firstn_len, length_firstn. simpl. lia.
Qed.

Lemma np_linspace_length (start stop : R) (num : Z) (x : vec) :
  np_linspace start stop num = Ok x -> length x = Z.to_nat num.
Proof.
  unfold np_linspace. destruct (num <? 0)%Z; [discriminate|].
  intros H; injection H as <-.
  destruct (1 <? num)%Z; rewrite ?set_last_length;
    destruct (0 <? num - 1)%Z; unfold vshift, vtimes;
    now rewrite !length_map, length_seq.
Qed.

Lemma initialize_simulation_inv (self : sim) (h r s : matrix) :
  initialize_simulation self = Ok (h, r, s) ->
  exists ns,
    num_steps self = Ok ns /\ (0 <= ns)%Z /\ (0 <= N self)%Z /\
    shape h (Z.to_nat ns) (Z.to_nat (N self)) /\
    shape r (Z.to_nat ns) (Z.to_nat (N self)) /\
    shape s (Z.to_nat ns) (Z.to_nat (N self)).
Proof.
  unfold initialize_simulation.
  destruct (num_steps self) as [ns|e]; [|discriminate]. simpl.
  destruct (np_zeros ns (N self)) as [z|e] eqn:Hz; [|discriminate]. simpl.
  intros H; injection H as <- <- <-.
  exists ns. pose proof (np_zeros_shape _ _ _ Hz) as Hs.
  unfold np_zeros in Hz.
  destruct (ns <? 0)%Z eqn:Hns; [discriminate|].
  destruct (N self <? 0)%Z eqn:HN; [discriminate|].
  repeat split; try apply Hs; lia.
Qed.

Lemma first_step_update_inv (self : sim) (f : callable) (k k' : rng)
    (h0 r0 s0 : vec) :
  first_step_update self f k = Ok (h0, r0, s0, k') ->
  length r0 = length h0 /\ length s0 = length h0.
Proof.
  unfold first_step_update. intros H.
  bind_inv H h. bind_inv H sn.
  unfold ret in H. injection H as <- <- <- <-.
  rewrite rate_length. split; [reflexivity|].
  unfold np_random_binomial in Hsn.
  destruct (forallb valid_probability _); [|discriminate].
  injection Hsn as Hsn.
  pose proof (bernoulli_trials_length
                (vtimes (rate self h) (delta_t self)) k0) as Hl.
  rewrite Hsn in Hl. simpl in Hl.
  now rewrite Hl, vtimes_length, rate_length.
Qed.

Lemma bind_assoc {A B C} (c : M A) (g : A -> M B) (h : B -> M C) (k : rng) :
  bind (bind c g) h k = bind c (fun a => bind (g a) h) k.
Proof. unfold bind. destruct (c k) as [[a k']|e]; reflexivity. Qed.

Lemma bind_ext {A B} (c : M A) (f f' : A -> M B) (k : rng) :
  (forall a k', f a k' = f' a k') -> bind c f k = bind c f' k.
Proof.
  intros Hf. unfold bind. destruct (c k) as [[a k']|e]; [apply Hf|reflexivity].
Qed.

Lemma run_prologue (self : sim) (f : callable) (k : rng) :
  run self f k =
  bind (prologue self f)
    (fun a => for_loop self (seq 0 (length (hR a) - 1)) a) k.
Proof.
  unfold run, prologue.
  do 2 (rewrite bind_assoc; apply bind_ext; intros [[? ?] ?] ?).
  do 2 (rewrite bind_assoc; apply bind_ext; intros ? ?).
  rewrite bind_assoc; apply bind_ext; intros [[? ?] ?] ?.
  do 3 (rewrite bind_assoc; apply bind_ext; intros ? ?).
  rewrite bind_assoc; apply bind_ext; intros [[? ?] ?] ?.
  do 3 (rewrite bind_assoc; apply bind_ext; intros ? ?).
  reflexivity.
Qed.

Lemma prologue_inv (self : sim) (f : callable) (k0 k1 : rng) (a : arrays) :
  prologue self f k0 = Ok (a, k1) ->
  exists ns,
    num_steps self = Ok ns /\ (1 <= ns)%Z /\ (0 <= N self)%Z /\
    well_shaped a (Z.to_nat ns) (Z.to_nat (N self)).
Proof.
  unfold prologue. intros H.
  bind_inv H iL. destruct iL as [[hL0 rL0] sL0].
  bind_inv H iR. destruct iR as [[hR0 rR0] sR0].
  bind_inv H xL0. bind_inv H xR0.
  bind_inv H fL. destruct fL as [[hl0 rl0] sl0].
  bind_inv H hL1. bind_inv H rL1. bind_inv H sL1.
  bind_inv H fR. destruct fR as [[hr0 rr0] sr0].
  bind_inv H hR1. bind_inv H rR1. bind_inv H sR1.
  unfold ret in H. injection H as <- <-.
  destruct (initialize_simulation_inv _ _ _ _ HiL)
    as (ns & Hns & Hns0 & HN & ShL & SrL & SsL).
  destruct (initialize_simulation_inv _ _ _ _ HiR)
    as (ns' & Hns' & _ & _ & ShR & SrR & SsR).
  assert (ns' = ns) by congruence. subst ns'.
  destruct (setrow_shape _ _ _ _ _ _ ShL HhL1) as [ShL1 Hpos].
  destruct (setrow_shape _ _ _ _ _ _ SrL HrL1) as [SrL1 _].
  destruct (setrow_shape _ _ _ _ _ _ SsL HsL1) as [SsL1 _].
  destruct (setrow_shape _ _ _ _ _ _ ShR HhR1) as [ShR1 _].
  destruct (setrow_shape _ _ _ _ _ _ SrR HrR1) as [SrR1 _].
  destruct (setrow_shape _ _ _ _ _ _ SsR HsR1) as [SsR1 _].
  pose proof (np_linspace_length _ _ _ _ HxL0) as HlxL.
  pose proof (np_linspace_length _ _ _ _ HxR0) as HlxR.
  exists ns. split; [assumption|]. split; [lia|]. split; [lia|].
  refine (conj _ (conj _ (conj _ (conj _ (conj _ (conj _ (conj _ _)))))));
    cbn [hL rL sL hR rR sR xL xR]; assumption.
Qed.

(** A run that returns leaves well-shaped arrays whose every row but the
    first was produced by [update] from the row before. *)
Lemma run_trace (self : sim) (f : callable) (k0 k1 : rng) (a : arrays) :
  run self f k0 = Ok (a, k1) ->
  exists ns,
    num_steps self = Ok ns /\ (1 <= ns)%Z /\ (0 <= N self)%Z /\
    well_shaped a (Z.to_nat ns) (Z.to_nat (N self)) /\
    forall t, (S t < Z.to_nat ns)%nat -> step_rel self a t.
Proof.
  rewrite run_prologue. intros H. bind_inv H a0.
  destruct (prologue_inv self f k0 k a0 Ha0) as (ns & Hns & Hpos & HN & Hsh).
  assert (Hlen : length (hR a0) = Z.to_nat ns) by apply Hsh.
  rewrite Hlen in H.
  apply (for_loop_inv self (Z.to_nat ns) (Z.to_nat (N self))) in H;
    [|assumption|lia].
  destruct H as (Ha & _ & Hrel).
  exists ns. split; [assumption|]. split; [lia|]. split; [lia|].
  split; [assumption|]. intros t Ht. apply Hrel. lia.
Qed.

(** ** Runs that return *)

Lemma bind_Ok {A B} (c : M A) (f : A -> M B) (k k' : rng) (a : A) :
  c k = Ok (a, k') -> bind c f k = f a k'.
Proof. intros Hc. unfold bind. now rewrite Hc. Qed.

Lemma probabilities_ok_row (self : sim) (h : vec) :
  probabilities_ok self ->
  forallb valid_probability (vtimes (rate self h) (delta_t self)) = true.
Proof.
  intros Hp. unfold rate, vtimes, vscale. rewrite !map_map.
  apply forallb_forall. intros p Hin.
  apply in_map_iff in Hin. destruct Hin as (v & <- & _). apply Hp.
Qed.

Lemma np_random_binomial_total (self : sim) (h : vec) (k : rng) :
  probabilities_ok self ->
  exists s k',
    np_random_binomial (vtimes (rate self h) (delta_t self)) k = Ok (s, k')
    /\ length s = length h.
Proof.
  intros Hp. unfold np_random_binomial.
  rewrite (probabilities_ok_row self h Hp).
  pose proof (bernoulli_trials_length
                (vtimes (rate self h) (delta_t self)) k) as Hl.
  destruct (bernoulli_trials _ k) as [s k']. simpl in Hl.
  rewrite vtimes_length, rate_length in Hl. eauto.
Qed.

Lemma advance_total (self : sim) (t : nat) (h r s : matrix) (ht I : vec)
    (k : rng) :
  tau self <> 0 -> probabilities_ok self ->
  exists h' r' s' k', advance self t h r s ht I k = Ok (h', r', s', k').
Proof.
  intros Htau Hp. unfold advance.
  destruct (Req_dec_T (tau self) 0); [contradiction|].
  rewrite (probabilities_ok_row self _ Hp).
  destruct (bernoulli_trials _ k) as [snew k']. eauto.
Qed.

Lemma loop_body_total (self : sim) (a : arrays) (t k n : nat) (k0 : rng) :
  well_shaped a k n -> (S t < k)%nat ->
  tau self <> 0 -> probabilities_ok self ->
  (exists i, head_at self t = Ok i) ->
  exists a' k1, loop_body self a t k0 = Ok (a', k1).
Proof.
  intros Ha Ht Htau Hp [i Hi].
  pose proof Ha as (HhL & HrL & HsL & HhR & HrR & HsR & HxL & HxR).
  destruct (shape_has_row _ _ _ t HhL) as [hLt HLt]; [lia|].
  destruct (shape_has_row _ _ _ t HhR) as [hRt HRt]; [lia|].
  destruct (shape_has_row _ _ _ t HsL) as [sLt HsLt]; [lia|].
  destruct (shape_has_row _ _ _ t HsR) as [sRt HsRt]; [lia|].
  unfold loop_body.
  pose proof (step_input_shaped self a t k n sLt sRt Ha HsLt HsRt) as Hin.
  rewrite Hi in Hin. cbn [rbind] in Hin. cbv zeta in Hin.
  rewrite Hin, bind_lift_Ok.
  rewrite (update_shaped self a t k n _ _ hLt hRt k0); auto;
    try (unfold recurrent_L, recurrent_R; now rewrite !length_map).
  destruct (advance_total self t (hL a) (rL a) (sL a) hLt
              (map (fun v => v - pulse_at self t - i)
                 (recurrent_L (xL a) (xR a) (vdiv_scalar sLt (delta_t self))
                    (vdiv_scalar sRt (delta_t self)) (J self) (theta self)))
              k0 Htau Hp)
    as (hL' & rL' & sL' & km & ->).
  destruct (advance_total self t (hR a) (rR a) (sR a) hRt
              (map (fun v => v + pulse_at self t + i)
                 (recurrent_R (xL a) (xR a) (vdiv_scalar sLt (delta_t self))
                    (vdiv_scalar sRt (delta_t self)) (J self) (theta self)))
              km Htau Hp)
    as (hR' & rR' & sR' & kn & ->).
  eauto.
Qed.

Lemma for_loop_total (self : sim) (k n m : nat) :
  forall (t0 : nat) (a : arrays) (k0 : rng),
    well_shaped a k n -> (t0 + m < k)%nat ->
    tau self <> 0 -> probabilities_ok self ->
    (forall t, (t0 <= t < t0 + m)%nat -> exists i, head_at self t = Ok i) ->
    exists a' k1, for_loop self (seq t0 m) a k0 = Ok (a', k1).
Proof.
  induction m as [|m IH]; intros t0 a k0 Ha Hk Htau Hp Hhead; simpl.
  - unfold ret. eauto.
  - destruct (loop_body_total self a t0 k n k0 Ha ltac:(lia) Htau Hp
                (Hhead t0 ltac:(lia))) as (a1 & km & Hbody).
    rewrite (bind_Ok _ _ _ _ _ Hbody).
    destruct (loop_body_inv self a a1 t0 k n k0 km Ha ltac:(lia) Hbody)
      as (Ha1 & _ & _).
    apply IH; auto; try lia. intros t Ht. apply Hhead. lia.
Qed.

Lemma np_zeros_total (k n : Z) :
  (0 <= k)%Z -> (0 <= n)%Z ->
  np_zeros k n = Ok (repeat (repeat 0 (Z.to_nat n)) (Z.to_nat k)).
Proof.
  intros Hk Hn. unfold np_zeros.
  destruct (Z.ltb_spec k 0); [lia|]. destruct (Z.ltb_spec n 0); [lia|].
  reflexivity.
Qed.

Lemma np_linspace_total (start stop : R) (num : Z) :
  (0 <= num)%Z -> exists x, np_linspace start stop num = Ok x.
Proof.
  intros Hn. unfold np_linspace.
  destruct (Z.ltb_spec num 0); [lia|]. eauto.
Qed.

Lemma first_step_update_total (self : sim) (f : callable) (k k' : rng)
    (h0 : vec) :
  probabilities_ok self -> call0 f k = Ok (h0, k') ->
  exists s0 k'',
    first_step_update self f k = Ok (h0, rate self h0, s0, k'') /\
    length s0 = length h0.
Proof.
  intros Hp Hcall. unfold first_step_update.
  rewrite (bind_Ok _ _ _ _ _ Hcall).
  destruct (np_random_binomial_total self h0 k' Hp) as (s0 & k'' & Hs & Hl).
  rewrite (bind_Ok _ _ _ _ _ Hs). unfold ret. eauto.
Qed.

Lemma prologue_total (self : sim) (f : callable) (ns : Z) (k0 : rng) :
  num_steps self = Ok ns -> (1 <= ns)%Z -> (0 <= N self)%Z ->
  probabilities_ok self -> initializer_ok self f ->
  exists a k1, prologue self f k0 = Ok (a, k1).
Proof.
  intros Hns Hpos HN Hp Hf.
  set (k := Z.to_nat ns). set (n := Z.to_nat (N self)).
  set (z := repeat (repeat 0 n) k).
  assert (Hz : shape z k n).
  { apply (np_zeros_shape ns (N self)). apply np_zeros_total; lia. }
  assert (Hinit : initialize_simulation self = Ok (z, z, z)).
  { unfold initialize_simulation. rewrite Hns. cbn [rbind].
    rewrite np_zeros_total by lia. reflexivity. }
  destruct (np_linspace_total 0 (2 * PI) (N self) HN) as [x Hx].
  destruct (Hf k0) as (hl & ka & HcallL & HlL).
  destruct (first_step_update_total self f k0 ka hl Hp HcallL)
    as (sl & kb & HfsL & HslL).
  destruct (Hf kb) as (hr & kc & HcallR & HlR).
  destruct (first_step_update_total self f kb kc hr Hp HcallR)
    as (sr & kd & HfsR & HslR).
  assert (Hk : (0 < k)%nat) by (unfold k; lia).
  unfold prologue, initialize_positions.
  rewrite Hinit, !bind_lift_Ok. cbv beta iota.
  rewrite Hx, !bind_lift_Ok.
  rewrite (bind_Ok _ _ _ _ _ HfsL). cbv beta iota.
  do 3 (rewrite (setrow_shaped z k n), bind_lift_Ok
          by (auto; rewrite ?rate_length; unfold n; congruence)).
  rewrite (bind_Ok _ _ _ _ _ HfsR). cbv beta iota.
  do 3 (rewrite (setrow_shaped z k n), bind_lift_Ok
          by (auto; rewrite ?rate_length; unfold n; congruence)).
  unfold ret. eauto.
Qed.

(** The run returns on a configuration with at least one step, a
    non-negative size, a non-zero time constant, valid spike probabilities,
    a working initializer and a head drive long enough for the loop. *)
Lemma run_total (self : sim) (f : callable) (ns : Z) (k0 : rng) :
  num_steps self = Ok ns -> (1 <= ns)%Z -> (0 <= N self)%Z ->
  tau self <> 0 -> probabilities_ok self -> initializer_ok self f ->
  (forall t, (S t < Z.to_nat ns)%nat -> exists i, head_at self t = Ok i) ->
  exists a k1, run self f k0 = Ok (a, k1).
Proof.
  intros Hns Hpos HN Htau Hp Hf Hhead.
  destruct (prologue_total self f ns k0 Hns Hpos HN Hp Hf)
    as (a0 & k & Hpro).
  destruct (prologue_inv self f k0 k a0 Hpro)
    as (ns' & Hns' & _ & _ & Hsh).
  assert (ns' = ns) by congruence. subst ns'.
  rewrite run_prologue, (bind_Ok _ _ _ _ _ Hpro).
  replace (length (hR a0)) with (Z.to_nat ns) by (symmetry; apply Hsh).
  apply (for_loop_total self (Z.to_nat ns) (Z.to_nat (N self)));
    auto; try lia.
  intros t Ht. apply Hhead. lia.
Qed.

(** ** The integrator *)

Lemma setrow_rows_agree (m m' : matrix) (t : nat) (v : vec) :
  setrow m (S t) v = Ok m' -> rows_agree m m' t.
Proof.
  intros Hset. destruct (setrow_inv _ _ _ _ Hset) as (old & w & _ & _ & ->).
  apply rows_agree_replace.
Qed.

(** Whatever the arrays, [update] at step [t] leaves rows [0..t] alone. *)
Lemma update_rows (self : sim) (a a' : arrays) (t : nat) (IL IR : vec)
    (k k' : rng) :
  update self a t IL IR k = Ok (a', k') -> agree a a' t.
Proof.
  unfold update. intros H.
  bind_inv H ht. bind_inv H c. bind_inv H ht'. bind_inv H d.
  bind_inv H hnew. bind_inv H hL1. bind_inv H h1. bind_inv H rL1.
  bind_inv H r1. bind_inv H snew. bind_inv H sL1.
  bind_inv H ut. bind_inv H c'. bind_inv H ut'. bind_inv H d'.
  bind_inv H gnew. bind_inv H hR1. bind_inv H g1. bind_inv H rR1.
  bind_inv H q1. bind_inv H znew. bind_inv H sR1.
  unfold ret in H. injection H as <- <-.
  refine (conj _ (conj _ (conj _ (conj _ (conj _ (conj _ (conj _ _)))))));
    cbn [hL rL sL hR rR sR xL xR]; try reflexivity;
    eapply setrow_rows_agree; eassumption.
Qed.

Lemma euler_nth (self : sim) (h I : vec) (i : nat) :
  length I = length h -> (i < length h)%nat ->
  nth i (euler self h I) 0 =
  nth i h 0 + delta_t self / tau self * (- nth i h 0 + R_ self * nth i I 0).
Proof.
  intros Hl Hi. unfold euler.
  now rewrite (zip_with_nth _ h I i 0 0 0) by congruence.
Qed.

Lemma rate_nth (self : sim) (h : vec) (i : nat) :
  (i < length h)%nat ->
  nth i (rate self h) 0 = r_0 self * g (nth i h 0) (alpha self) (beta self).
Proof.
  intros Hi. unfold rate, vscale. rewrite map_map.
  rewrite (nth_indep _ 0 (r_0 self * g 0 (alpha self) (beta self)))
    by (now rewrite length_map).
  now rewrite (map_nth (fun v => r_0 self * g v (alpha self) (beta self))).
Qed.

(** C1.  In a run that returns, the arrays have [num_steps] rows and, for
    every step [t] from [0] to [num_steps - 2] and each population, row
    [t + 1] of [h] is the explicit Euler step
    [h[t] + delta_t/tau * (-h[t] + R * I[t])] on that population's own
    input current of step [t], row [t + 1] of [r] is
    [r_0 * g(h[t+1], alpha, beta)], and row [t + 1] of [s] is drawn by the
    Bernoulli sampler at the probabilities [r[t+1] * delta_t] (left before
    right); [update] itself never writes row [0] (nor any row up to [t]). *)
Theorem update_is_explicit_euler (self : sim) (f : callable) (k0 k1 : rng)
    (a : arrays) :
  run self f k0 = Ok (a, k1) ->
  (exists ns, num_steps self = Ok ns /\ length (hL a) = Z.to_nat ns) /\
  (forall t, (S t < length (hL a))%nat ->
     exists IL IR,
       step_input self a t = Ok (IL, IR) /\
       (forall i, (i < Z.to_nat (N self))%nat ->
          nth i (nth (S t) (hL a) []) 0 =
            nth i (nth t (hL a) []) 0
            + delta_t self / tau self
              * (- nth i (nth t (hL a) []) 0 + R_ self * nth i IL 0) /\
          nth i (nth (S t) (hR a) []) 0 =
            nth i (nth t (hR a) []) 0
            + delta_t self / tau self
              * (- nth i (nth t (hR a) []) 0 + R_ self * nth i IR 0) /\
          nth i (nth (S t) (rL a) []) 0 =
            r_0 self * g (nth i (nth (S t) (hL a) []) 0)
                         (alpha self) (beta self) /\
          nth i (nth (S t) (rR a) []) 0 =
            r_0 self * g (nth i (nth (S t) (hR a) []) 0)
                         (alpha self) (beta self)) /\
       exists ka kb kc,
         np_random_binomial
           (vtimes (nth (S t) (rL a) []) (delta_t self)) ka
           = Ok (nth (S t) (sL a) [], kb) /\
         np_random_binomial
           (vtimes (nth (S t) (rR a) []) (delta_t self)) kb
           = Ok (nth (S t) (sR a) [], kc)) /\
  (forall b b' t IL IR k k',
     update self b t IL IR k = Ok (b', k') ->
     agree b b' t /\
     nth_error (hL b') 0 = nth_error (hL b) 0 /\
     nth_error (rL b') 0 = nth_error (rL b) 0 /\
     nth_error (sL b') 0 = nth_error (sL b) 0 /\
     nth_error (hR b') 0 = nth_error (hR b) 0 /\
     nth_error (rR b') 0 = nth_error (rR b) 0 /\
     nth_error (sR b') 0 = nth_error (sR b) 0).
Proof.
  intros Hrun.
  destruct (run_trace self f k0 k1 a Hrun)
    as (ns & Hns & Hpos & HN & Ha & Hrel).
  assert (Hk : length (hL a) = Z.to_nat ns) by apply Ha.
  split; [exists ns; split; assumption|]. split.
  - intros t Ht.
    destruct (Hrel t ltac:(lia))
      as (hLt & hRt & IL & IR & H1 & H2 & H3 & H4 & H5 & H6 & H7 & H8
          & H9 & H10 & ka & kb & kc & sLn & sRn & D1 & D2 & D3 & D4).
    pose proof Ha as (HhL & _ & _ & HhR & _).
    pose proof (shape_row _ _ _ _ _ HhL H1) as HlL.
    pose proof (shape_row _ _ _ _ _ HhR H2) as HlR.
    exists IL, IR. split; [assumption|].
    rewrite (nth_error_nth _ _ [] H1), (nth_error_nth _ _ [] H2),
      (nth_error_nth _ _ [] H7), (nth_error_nth _ _ [] H8),
      (nth_error_nth _ _ [] H9), (nth_error_nth _ _ [] H10),
      (nth_error_nth _ _ [] D3), (nth_error_nth _ _ [] D4).
    split.
    + intros i Hi.
      rewrite !euler_nth by congruence.
      rewrite !rate_nth by (rewrite euler_length; congruence).
      rewrite !euler_nth by congruence. auto.
    + exists ka, kb, kc. auto.
  - intros b b' t IL IR k k' Hup.
    pose proof (update_rows self b b' t IL IR k k' Hup) as Hag.
    split; [exact Hag|].
    destruct Hag as (G1 & G2 & G3 & G4 & G5 & G6 & _).
    repeat split; [apply G1|apply G2|apply G3|apply G4|apply G5|apply G6];
      lia.
Qed.

(** ** The recurrent input *)

Lemma map_nth_in (F : R -> R) (l : vec) (i : nat) :
  (i < length l)%nat -> nth i (map F l) 0 = F (nth i l 0).
Proof.
  intros Hi. rewrite (nth_indep _ 0 (F 0)) by (now rewrite length_map).
  apply map_nth.
Qed.


(** ** The external drives *)

Lemma in_window_true (lo t hi : R) :
  lo <= t < hi -> in_window lo t hi = true.
Proof.
  intros [Hlo Hhi]. unfold in_window.
  destruct (Rle_dec lo t); [|contradiction].
  destruct (Rlt_dec t hi); [reflexivity|contradiction].
Qed.

Lemma in_window_false (lo t hi : R) :
  ~ (lo <= t < hi) -> in_window lo t hi = false.
Proof.
  intros Hout. unfold in_window.
  destruct (Rle_dec lo t); [|reflexivity].
  destruct (Rlt_dec t hi); [|reflexivity].
  exfalso. apply Hout. split; assumption.
Qed.

(** The input currents of a step of a run that returns, neuron by neuron. *)
Lemma run_step_input (self : sim) (f : callable) (k0 k1 : rng) (a : arrays)
    (t : nat) :
  run self f k0 = Ok (a, k1) -> (S t < length (hL a))%nat ->
  exists IL0 IR0 IL IR d,
    two_population_recurrent_input (xL a) (xR a)
      (vdiv_scalar (nth t (sL a) []) (delta_t self))
      (vdiv_scalar (nth t (sR a) []) (delta_t self))
      (J self) (theta self) = Ok (IL0, IR0) /\
    head_at self t = Ok d /\
    step_input self a t = Ok (IL, IR) /\
    length IL0 = Z.to_nat (N self) /\ length IR0 = Z.to_nat (N self) /\
    forall i, (i < Z.to_nat (N self))%nat ->
      nth i IL 0 = nth i IL0 0 - pulse_at self t - d /\
      nth i IR 0 = nth i IR0 0 + pulse_at self t + d.
Proof.
  intros Hrun Ht.
  destruct (run_trace self f k0 k1 a Hrun)
    as (ns & Hns & Hpos & HN & Ha & Hrel).
  pose proof Ha as (HhL & _ & HsL & _ & _ & HsR & HxL & HxR).
  assert (Hk : length (hL a) = Z.to_nat ns) by apply HhL.
  destruct (shape_has_row _ _ _ t HsL) as [sLt HLt]; [lia|].
  destruct (shape_has_row _ _ _ t HsR) as [sRt HRt]; [lia|].
  pose proof (shape_row _ _ _ _ _ HsL HLt) as HlL.
  pose proof (shape_row _ _ _ _ _ HsR HRt) as HlR.
  pose proof (step_input_shaped self a t _ _ sLt sRt Ha HLt HRt) as Hin.
  cbv zeta in Hin.
  destruct (Hrel t ltac:(lia)) as (_ & _ & IL & IR & _ & _ & Hok & _).
  rewrite (nth_error_nth _ _ [] HLt), (nth_error_nth _ _ [] HRt).
  destruct (head_at self t) as [d|e]; cbn [rbind] in Hin;
    [|congruence].
  exists (recurrent_L (xL a) (xR a) (vdiv_scalar sLt (delta_t self))
            (vdiv_scalar sRt (delta_t self)) (J self) (theta self)),
         (recurrent_R (xL a) (xR a) (vdiv_scalar sLt (delta_t self))
            (vdiv_scalar sRt (delta_t self)) (J self) (theta self)).
  eexists _, _, d.
  split; [|split; [reflexivity|split; [exact Hin|]]].
  - apply (recurrent_input_shaped _ _ _ _ _ _ (Z.to_nat (N self)));
      unfold vdiv_scalar; rewrite ?length_map; assumption.
  - unfold recurrent_L, recurrent_R. rewrite !length_map.
    split; [assumption|]. split; [assumption|].
    intros i Hi.
    rewrite (map_nth_in (fun v => v - pulse_at self t - d))
      by (rewrite length_map; congruence).
    rewrite (map_nth_in (fun v => v + pulse_at self t + d))
      by (rewrite length_map; congruence).
    auto.
Qed.

(** C3.  With the pulse enabled, step [t] adds [-p] to the left input and
    [+p] to the right one, where [p = external_input(t * delta_t)] is [I0]
    when [300 <= t * delta_t < 600] and [0] otherwise; with [I0 = 5] and
    [delta_t = 1] it is [0] at [t = 299], [5] from [t = 300] to [t = 599]
    and [0] again at [t = 600]. *)
Theorem pulse_window (self : sim) :
  I_ext self = true ->
  (forall t : nat,
     (300 <= INR t * delta_t self < 600 ->
      external_input self (INR t * delta_t self) = I0 self) /\
     (~ (300 <= INR t * delta_t self < 600) ->
      external_input self (INR t * delta_t self) = 0)) /\
  (forall f k0 k1 a t,
     run self f k0 = Ok (a, k1) -> (S t < length (hL a))%nat ->
     exists IL0 IR0 IL IR d,
       two_population_recurrent_input (xL a) (xR a)
         (vdiv_scalar (nth t (sL a) []) (delta_t self))
         (vdiv_scalar (nth t (sR a) []) (delta_t self))
         (J self) (theta self) = Ok (IL0, IR0) /\
       head_at self t = Ok d /\
       step_input self a t = Ok (IL, IR) /\
       forall i, (i < Z.to_nat (N self))%nat ->
         nth i IL 0 =
           nth i IL0 0 - external_input self (INR t * delta_t self) - d /\
         nth i IR 0 =
           nth i IR0 0 + external_input self (INR t * delta_t self) + d) /\
  (I0 self = 5 -> delta_t self = 1 ->
   external_input self (INR 299 * delta_t self) = 0 /\
   (forall t, (300 <= t <= 599)%nat ->
      external_input self (INR t * delta_t self) = 5) /\
   external_input self (INR 600 * delta_t self) = 0).
Proof.
  intros Hext. split; [|split].
  - intros t. unfold external_input. split; intros Hw.
    + now rewrite in_window_true.
    + now rewrite in_window_false.
  - intros f k0 k1 a t Hrun Ht.
    destruct (run_step_input self f k0 k1 a t Hrun Ht)
      as (IL0 & IR0 & IL & IR & d & H1 & H2 & H3 & _ & _ & H4).
    exists IL0, IR0, IL, IR, d. repeat (split; [assumption|]).
    unfold pulse_at in H4. rewrite Hext in H4. exact H4.
  - intros HI0 Hdt. rewrite Hdt. unfold external_input. rewrite HI0.
    split; [|split].
    + rewrite in_window_false; [reflexivity|].
      rewrite INR_IZR_INZ. simpl. lra.
    + intros t Ht. rewrite in_window_true; [reflexivity|].
      assert (H300 : INR 300 <= INR t) by (apply le_INR; lia).
      assert (H599 : INR t <= INR 599) by (apply le_INR; lia).
      rewrite (INR_IZR_INZ 300) in H300. rewrite (INR_IZR_INZ 599) in H599.
      simpl in H300, H599. lra.
    + rewrite in_window_false; [reflexivity|].
      rewrite INR_IZR_INZ. simpl. lra.
Qed.

Lemma zip_with_comm (a b : vec) :
  zip_with Rmult a b = zip_with Rmult b a.
Proof.
  revert b; induction a as [|x a IH]; intros [|y b]; simpl; auto.
  now rewrite IH, Rmult_comm.
Qed.

Lemma head_drive_rows (Jh dt : R) (s : matrix) (w : R -> R) (x : vec) :
  Forall (fun row => length row = length x) s ->
  head_drive Jh dt s (map w x) =
  Ok (map (fun row => Jh * weighted_mean w x (vdiv_scalar row dt)) s).
Proof.
  intros Hs. unfold head_drive.
  assert (Hmap :
    rmap (fun row => broadcast Rmult (vdiv_scalar row dt) (map w x)) s =
    Ok (map (fun row => zip_with Rmult (map w x) (vdiv_scalar row dt)) s)).
  { induction Hs as [|row s Hrow Hs IH]; simpl; [reflexivity|].
    rewrite broadcast_same
      by (unfold vdiv_scalar; rewrite !length_map; assumption).
    simpl. rewrite IH. simpl. now rewrite zip_with_comm. }
  rewrite Hmap. simpl. unfold vscale. rewrite !map_map. f_equal.
  apply map_ext_in. intros row Hin.
  rewrite Forall_forall in Hs.
  rewrite np_mean_weighted
    by (unfold vdiv_scalar; rewrite length_map; symmetry; auto).
  reflexivity.
Qed.

(** C4, as the code has it.  With a head population, [__init__] computes
    [I_head] once: entry [t] is [J_head] times the mean over the head
    population's neurons of
    their rate [s[t] / delta_t] weighted by [cos(position)] when the cosine
    projection is selected and by [sin(position)] otherwise; in the loop,
    step [t] only reads [I_head[t]], subtracts it from the left input and
    adds it to the right one. *)
Theorem head_drive_precomputed (N0 : Z)
    (dt tau0 T0 R0 r0 alpha0 beta0 J0 theta0 I00 : R) (I_ext0 : bool)
    (Jh : R) (hp : population) (x : bool) (self : sim) :
  init N0 dt tau0 T0 R0 r0 alpha0 beta0 J0 theta0 I00 I_ext0 Jh
    (Some hp) x = Ok self ->
  Forall (fun row => length row = length (pop_x hp)) (pop_s hp) ->
  let w := if x then cos else sin in
  w_head self = Some (map w (pop_x hp)) /\
  length (I_head self) = length (pop_s hp) /\
  (forall t row,
     nth_error (pop_s hp) t = Some row ->
     nth_error (I_head self) t =
       Some (Jh * weighted_mean w (pop_x hp) (vdiv_scalar row dt))) /\
  (forall f k0 k1 a t,
     run self f k0 = Ok (a, k1) -> (S t < length (hL a))%nat ->
     exists IL0 IR0 IL IR d,
       nth_error (I_head self) t = Some d /\
       two_population_recurrent_input (xL a) (xR a)
         (vdiv_scalar (nth t (sL a) []) (delta_t self))
         (vdiv_scalar (nth t (sR a) []) (delta_t self))
         (J self) (theta self) = Ok (IL0, IR0) /\
       step_input self a t = Ok (IL, IR) /\
       forall i, (i < Z.to_nat (N self))%nat ->
         nth i IL 0 = nth i IL0 0 - pulse_at self t - d /\
         nth i IR 0 = nth i IR0 0 + pulse_at self t + d).
Proof.
  intros Hinit Hrows w.
  assert (Hself :
    w_head self = Some (map w (pop_x hp)) /\
    I_head self =
      map (fun row => Jh * weighted_mean w (pop_x hp) (vdiv_scalar row dt))
        (pop_s hp)).
  { unfold init in Hinit. subst w.
    destruct x; rewrite head_drive_rows in Hinit by assumption;
      simpl in Hinit; injection Hinit as <-; split; reflexivity. }
  destruct Hself as [Hw HI].
  split; [exact Hw|]. split; [now rewrite HI, length_map|]. split.
  - intros t row Hrow. rewrite HI.
    now rewrite nth_error_map, Hrow.
  - intros f k0 k1 a t Hrun Ht.
    destruct (run_step_input self f k0 k1 a t Hrun Ht)
      as (IL0 & IR0 & IL & IR & d & H1 & H2 & H3 & _ & _ & H4).
    exists IL0, IR0, IL, IR, d.
    split; [|auto].
    unfold head_at, getitem in H2. rewrite Hw in H2.
    destruct (nth_error (I_head self) t); congruence.
Qed.

(** ** The uncoupled network *)

(** C5.  With [J = 0], no pulse and no head population, every step of a run
    that returns maps each potential [h[t]] to [h[t] * (1 - delta_t/tau)],
    whatever the spikes drawn. *)
Theorem uncoupled_leaky_integrator (self : sim) (f : callable) (k0 k1 : rng)
    (a : arrays) :
  J self = 0 -> I_ext self = false -> w_head self = None ->
  run self f k0 = Ok (a, k1) ->
  forall t i, (S t < length (hL a))%nat -> (i < Z.to_nat (N self))%nat ->
    nth i (nth (S t) (hL a) []) 0 =
      nth i (nth t (hL a) []) 0 * (1 - delta_t self / tau self) /\
    nth i (nth (S t) (hR a) []) 0 =
      nth i (nth t (hR a) []) 0 * (1 - delta_t self / tau self).
Proof.
  intros HJ Hext Hw Hrun t i Ht Hi.
  destruct (run_trace self f k0 k1 a Hrun)
    as (ns & Hns & Hpos & HN & Ha & Hrel).
  assert (Hk : length (hL a) = Z.to_nat ns) by apply Ha.
  destruct (Hrel t ltac:(lia))
    as (hLt & hRt & IL & IR & H1 & H2 & H3 & H4 & H5 & H6 & H7 & _
        & H9 & _).
  destruct (run_step_input self f k0 k1 a t Hrun Ht)
    as (IL0 & IR0 & IL' & IR' & d & G1 & G2 & G3 & GL & GR & G4).
  rewrite H3 in G3. injection G3 as <- <-.
  pose proof Ha as (HhL & _ & HsL & HhR & _ & HsR & HxL & HxR).
  destruct (shape_has_row _ _ _ t HsL) as [sLt HLt]; [lia|].
  destruct (shape_has_row _ _ _ t HsR) as [sRt HRt]; [lia|].
  rewrite (nth_error_nth _ _ [] HLt), (nth_error_nth _ _ [] HRt) in G1.
  pose proof (shape_row _ _ _ _ _ HsL HLt) as HlsL.
  pose proof (shape_row _ _ _ _ _ HsR HRt) as HlsR.
  rewrite (recurrent_input_shaped _ _ _ _ _ _ (Z.to_nat (N self))) in G1
    by (unfold vdiv_scalar; rewrite ?length_map; assumption).
  injection G1 as <- <-.
  destruct (G4 i Hi) as [HiL HiR].
  rewrite !map_nth_in in HiL, HiR by congruence.
  unfold head_at in G2. rewrite Hw in G2. injection G2 as <-.
  unfold pulse_at in HiL, HiR. rewrite Hext, HJ in HiL, HiR.
  pose proof (shape_row _ _ _ _ _ HhL H1) as HlL.
  pose proof (shape_row _ _ _ _ _ HhR H2) as HlR.
  rewrite (nth_error_nth _ _ [] H1), (nth_error_nth _ _ [] H2),
    (nth_error_nth _ _ [] H7), (nth_error_nth _ _ [] H9).
  rewrite !euler_nth by congruence.
  rewrite HiL, HiR. split; ring.
Qed.

(** ** Shapes of the result *)


Lemma head_long_enough (self : sim) (k t : nat) :
  (forall w, w_head self = Some w -> (k - 1 <= length (I_head self))%nat) ->
  (S t < k)%nat -> exists i, head_at self t = Ok i.
Proof.
  intros Hlen Ht. unfold head_at.
  destruct (w_head self) as [w|]; [|eauto].
  specialize (Hlen w eq_refl). unfold getitem.
  destruct (nth_error (I_head self) t) eqn:Hi; [eauto|].
  apply nth_error_None in Hi. lia.
Qed.


(** ** The default initializer *)

Lemma uniform_draws_length (n : nat) (k : rng) :
  length (fst (uniform_draws n k)) = n.
Proof.
  revert k; induction n as [|n IH]; intros k; simpl; auto.
  destruct (uniform01 k) as [u k1]. specialize (IH k1).
  destruct (uniform_draws n k1) as [us k2]. simpl in *. now rewrite IH.
Qed.

Lemma uniform_voltage_ok (self : sim) :
  (0 <= N self)%Z -> initializer_ok self (Method_uniform_voltage self).
Proof.
  intros HN k. simpl. unfold uniform_voltage, np_random_uniform.
  destruct (Z.ltb_spec (N self) 0); [lia|].
  pose proof (uniform_draws_length (Z.to_nat (N self)) k) as Hl.
  destruct (uniform_draws _ k) as [us k']. eauto.
Qed.

Lemma centered_voltage_ok (self : sim) :
  (0 <= N self)%Z -> initializer_ok self (Method_centered_voltage self).
Proof.
  intros HN k. simpl. unfold centered_voltage.
  destruct (np_linspace_total 0 1 (N self) HN) as [u Hu].
  rewrite Hu, bind_lift_Ok. unfold ret.
  do 2 eexists. split; [reflexivity|].
  rewrite length_map. eapply np_linspace_length; eauto.
Qed.

(** C10.  [simulation()] without argument never returns: the default
    [initial_voltage] is the plain function [uniform_voltage], which
    [first_step_update] calls with no argument, so that the call raises
    [TypeError] as soon as the arrays and positions are allocated; with a
    callable of no argument, such as the bound methods
    [self.uniform_voltage] and [self.centered_voltage], the run returns (on
    a configuration that is otherwise valid). *)
Theorem default_initializer_raises (self : sim) (k0 : rng) :
  (forall r, simulation self None k0 <> Ok r) /\
  (forall ns, num_steps self = Ok ns -> (0 <= ns)%Z -> (0 <= N self)%Z ->
     simulation self None k0 = Raise TypeError) /\
  (forall ns f,
     f = Method_uniform_voltage self \/ f = Method_centered_voltage self ->
     num_steps self = Ok ns -> (1 <= ns)%Z -> (0 <= N self)%Z ->
     tau self <> 0 -> probabilities_ok self -> w_head self = None ->
     exists r, simulation self (Some f) k0 = Ok r).
Proof.
  split; [|split].
  - intros r Hsim. unfold simulation in Hsim.
    bind_inv Hsim a. unfold run in Ha.
    bind_inv Ha iL. destruct iL as [[hL0 rL0] sL0].
    bind_inv Ha iR. destruct iR as [[hR0 rR0] sR0].
    bind_inv Ha xL0. bind_inv Ha xR0.
    bind_inv Ha fL. unfold first_step_update in HfL.
    bind_inv HfL h0. discriminate.
  - intros ns Hns Hpos HN.
    assert (Hinit : initialize_simulation self =
              Ok (repeat (repeat 0 (Z.to_nat (N self))) (Z.to_nat ns),
                  repeat (repeat 0 (Z.to_nat (N self))) (Z.to_nat ns),
                  repeat (repeat 0 (Z.to_nat (N self))) (Z.to_nat ns))).
    { unfold initialize_simulation. rewrite Hns. cbn [rbind].
      rewrite np_zeros_total by lia. reflexivity. }
    destruct (np_linspace_total 0 (2 * PI) (N self) HN) as [x Hx].
    assert (Hrun : run self Function_uniform_voltage k0 = Raise TypeError).
    { unfold run, initialize_positions.
      rewrite Hinit, Hx, !bind_lift_Ok. cbv beta iota.
      rewrite ?bind_lift_Ok. reflexivity. }
    unfold simulation, bind. now rewrite Hrun.
  - intros ns f Hf Hns Hpos HN Htau Hp Hw.
    assert (Hok : initializer_ok self f)
      by (destruct Hf as [-> | ->];
          [apply uniform_voltage_ok | apply centered_voltage_ok]; exact HN).
    destruct (run_total self f ns k0 Hns Hpos HN Htau Hp Hok)
      as (a & k1 & Hrun).
    { intros t _. unfold head_at. rewrite Hw. eauto. }
    unfold simulation. rewrite (bind_Ok _ _ _ _ _ Hrun). unfold ret. eauto.
Qed.

(** ** Ring positions *)

Lemma set_last_nth (a : vec) (v : R) (i : nat) :
  (i < length a)%nat ->
  nth i (set_last a v) 0 = if (i =? length a - 1)%nat then v else nth i a 0.
Proof.
  intros Hi. unfold set_last.
  destruct a as [|x a]; [simpl in Hi; lia|].
  assert (Hrl : length (removelast (x :: a)) = length a).
  { rewrite removelast_firstn_len, length_firstn. simpl. lia. }
  destruct (Nat.eqb_spec i (length (x :: a) - 1)) as [->|Hne].
  - rewrite app_nth2 by (rewrite Hrl; simpl; lia).
    rewrite Hrl. simpl. now rewrite Nat.sub_0_r, Nat.sub_diag.
  - simpl in Hne, Hi.
    rewrite app_nth1 by (rewrite Hrl; lia).
    rewrite removelast_firstn_len, nth_firstn.
    destruct (Nat.ltb_spec i (Nat.pred (length (x :: a))));
      [reflexivity|simpl in *; lia].
Qed.

Lemma set_last_last (a : vec) (v : R) :
  a <> [] -> last (set_last a v) 0 = v.
Proof.
  intros Ha. unfold set_last. destruct a; [contradiction|]. apply last_last.
Qed.

Lemma np_linspace_nth (start stop : R) (num : Z) (x : vec) (i : nat) :
  (2 <= num)%Z -> np_linspace start stop num = Ok x ->
  (i < Z.to_nat num)%nat ->
  nth i x 0 = start + INR i * ((stop - start) / IZR (num - 1)).
Proof.
  intros Hnum Hx Hi. unfold np_linspace in Hx.
  destruct (Z.ltb_spec num 0); [lia|].
  destruct (Z.ltb_spec 0 (num - 1)); [|lia].
  destruct (Z.ltb_spec 1 num); [|lia].
  injection Hx as <-.
  set (step := (stop - start) / IZR (num - 1)).
  assert (Hlen : length (vshift (vtimes (map INR (seq 0 (Z.to_nat num))) step)
                           start) = Z.to_nat num)
    by (unfold vshift, vtimes; now rewrite !length_map, length_seq).
  assert (Hy : nth i (vshift (vtimes (map INR (seq 0 (Z.to_nat num))) step)
                        start) 0 = start + INR i * step).
  { unfold vshift, vtimes.
    rewrite !map_nth_in by (rewrite ?length_map, length_seq; assumption).
    change 0 with (INR 0) at 1. rewrite map_nth, seq_nth by assumption.
    simpl. ring. }
  rewrite set_last_nth by (rewrite Hlen; assumption).
  rewrite Hlen, Hy.
  destruct (Nat.eqb_spec i (Z.to_nat num - 1)) as [->|_]; [|reflexivity].
  assert (Hcast : INR (Z.to_nat num - 1) = IZR (num - 1)).
  { rewrite INR_IZR_INZ. f_equal. lia. }
  rewrite Hcast. unfold step. field.
  apply not_0_IZR. lia.
Qed.

(** C7, as the code has it.  The positions are a function of [N] alone; for
    [N >= 2] they are the [N] values [i * 2pi / (N - 1)], strictly
    increasing from [0] to [2pi] inclusive; for [N = 1] the single position
    is [0]. *)
Theorem ring_positions (self : sim) :
  (forall self', N self' = N self ->
     initialize_positions self' = initialize_positions self) /\
  (N self = 1%Z -> exists v, initialize_positions self = Ok [v] /\ v = 0) /\
  ((2 <= N self)%Z ->
   exists x,
     initialize_positions self = Ok x /\
     length x = Z.to_nat (N self) /\
     (forall i, (i < Z.to_nat (N self))%nat ->
        nth i x 0 = INR i * (2 * PI / IZR (N self - 1))) /\
     (forall i, (S i < Z.to_nat (N self))%nat ->
        nth (S i) x 0 - nth i x 0 = 2 * PI / IZR (N self - 1)) /\
     (forall i j, (i < j < Z.to_nat (N self))%nat -> nth i x 0 < nth j x 0) /\
     nth 0 x 0 = 0 /\ last x 0 = 2 * PI).
Proof.
  split; [|split].
  - intros self' HN. unfold initialize_positions. now rewrite HN.
  - intros HN. unfold initialize_positions, np_linspace. rewrite HN. simpl.
    eexists. split; [reflexivity|]. ring.
  - intros HN.
    destruct (np_linspace_total 0 (2 * PI) (N self) ltac:(lia)) as [x Hx].
    pose proof (np_linspace_length _ _ _ _ Hx) as Hlen.
    assert (Hnth : forall i, (i < Z.to_nat (N self))%nat ->
              nth i x 0 = INR i * (2 * PI / IZR (N self - 1))).
    { intros i Hi. rewrite (np_linspace_nth _ _ _ _ i HN Hx Hi).
      rewrite Rminus_0_r. ring. }
    assert (Hstep : 0 < 2 * PI / IZR (N self - 1)).
    { apply Rdiv_lt_0_compat; [pose proof PI_RGT_0; lra|].
      apply IZR_lt. lia. }
    exists x. unfold initialize_positions.
    split; [exact Hx|]. split; [exact Hlen|]. split; [exact Hnth|].
    split; [|split; [|split]].
    + intros i Hi. rewrite !Hnth by lia. rewrite S_INR. ring.
    + intros i j [Hij Hj]. rewrite !Hnth by lia.
      apply Rmult_lt_compat_r; [exact Hstep|]. now apply lt_INR.
    + rewrite Hnth by lia. simpl. ring.
    + unfold np_linspace in Hx.
      destruct (Z.ltb_spec (N self) 0); [lia|].
      destruct (Z.ltb_spec 1 (N self)); [|lia].
      injection Hx as <-. apply set_last_last.
      unfold vshift, vtimes.
      destruct (Z.to_nat (N self)) as [|m] eqn:Hm; [lia|].
      destruct (0 <? N self - 1)%Z; simpl; discriminate.
Qed.

(** ** Configurations that are not checked *)

Lemma prologue_Raise (self : sim) (f : callable) (k0 : rng) (e : exn) :
  prologue self f k0 = Raise e ->
  run self f k0 = Raise e /\ simulation self (Some f) k0 = Raise e.
Proof.
  intros Hpro.
  assert (Hrun : run self f k0 = Raise e)
    by (rewrite run_prologue; unfold bind; now rewrite Hpro).
  split; [exact Hrun|]. unfold simulation, bind. now rewrite Hrun.
Qed.


(** ** A head drive shorter than the run *)

Lemma for_loop_app (self : sim) (ts ts' : list nat) (a : arrays) (k : rng) :
  for_loop self (ts ++ ts') a k =
  bind (for_loop self ts a) (for_loop self ts') k.
Proof.
  revert a k; induction ts as [|t ts IH]; intros a k; simpl.
  - reflexivity.
  - rewrite bind_assoc. apply bind_ext. intros a' k'. apply IH.
Qed.

Lemma loop_body_short_head (self : sim) (a : arrays) (t k n : nat)
    (w : vec) (k0 : rng) :
  well_shaped a k n -> (S t < k)%nat ->
  w_head self = Some w -> (length (I_head self) <= t)%nat ->
  loop_body self a t k0 = Raise IndexError.
Proof.
  intros Ha Ht Hw Hlen.
  pose proof Ha as (_ & _ & HsL & _ & _ & HsR & _).
  destruct (shape_has_row _ _ _ t HsL) as [sLt HLt]; [lia|].
  destruct (shape_has_row _ _ _ t HsR) as [sRt HRt]; [lia|].
  unfold loop_body.
  rewrite (step_input_shaped self a t k n sLt sRt Ha HLt HRt).
  unfold head_at. rewrite Hw, (getitem_short _ _ Hlen). reflexivity.
Qed.

(** C9, as the code has it.  Nothing compares the head drive with the number
    of steps and no [ShapeMismatchError] exists.  On a configuration that is
    otherwise valid, a drive of fewer than [num_steps - 1] entries lets the
    loop run its first [len(I_head)] steps and raises [IndexError] at step
    [t = len(I_head)]; a drive of at least [num_steps - 1] entries, so also
    one that is one entry short of [num_steps], lets the run return. *)
Theorem short_head_drive (self : sim) (f : callable) (ns : Z) (w : vec)
    (k0 : rng) :
  num_steps self = Ok ns -> (1 <= ns)%Z -> (0 <= N self)%Z ->
  tau self <> 0 -> probabilities_ok self -> initializer_ok self f ->
  w_head self = Some w ->
  ((length (I_head self) < Z.to_nat ns - 1)%nat ->
   exists a k1 a' k2,
     prologue self f k0 = Ok (a, k1) /\
     for_loop self (seq 0 (length (I_head self))) a k1 = Ok (a', k2) /\
     loop_body self a' (length (I_head self)) k2 = Raise IndexError /\
     run self f k0 = Raise IndexError) /\
  ((Z.to_nat ns - 1 <= length (I_head self))%nat ->
   exists a k1, run self f k0 = Ok (a, k1)).
Proof.
  intros Hns Hpos HN Htau Hp Hf Hw. split.
  - intros Hshort.
    destruct (prologue_total self f ns k0 Hns Hpos HN Hp Hf)
      as (a & k1 & Hpro).
    destruct (prologue_inv self f k0 k1 a Hpro)
      as (ns' & Hns' & _ & _ & Hsh).
    assert (ns' = ns) by congruence. subst ns'.
    set (len := length (I_head self)) in *.
    destruct (for_loop_total self (Z.to_nat ns) (Z.to_nat (N self)) len
                0 a k1 Hsh ltac:(lia) Htau Hp) as (a' & k2 & Hloop).
    { intros t Ht. unfold head_at, getitem. rewrite Hw.
      destruct (nth_error (I_head self) t) eqn:Hi; [eauto|].
      apply nth_error_None in Hi. fold len in Hi. lia. }
    destruct (for_loop_inv self (Z.to_nat ns) (Z.to_nat (N self)) len
                0 a a' k1 k2 Hsh ltac:(lia) Hloop) as (Hsh' & _ & _).
    pose proof (loop_body_short_head self a' len _ _ w k2 Hsh'
                  ltac:(lia) Hw ltac:(unfold len; lia)) as Hbody.
    exists a, k1, a', k2.
    split; [exact Hpro|]. split; [exact Hloop|]. split; [exact Hbody|].
    rewrite run_prologue, (bind_Ok _ _ _ _ _ Hpro).
    replace (length (hR a)) with (Z.to_nat ns) by (symmetry; apply Hsh).
    replace (Z.to_nat ns - 1)%nat
      with (len + S (Z.to_nat ns - 1 - S len))%nat by lia.
    rewrite seq_app, for_loop_app, (bind_Ok _ _ _ _ _ Hloop).
    simpl. unfold bind at 1. now rewrite Hbody.
  - intros Hlong.
    apply (run_total self f ns k0 Hns Hpos HN Htau Hp Hf).
    intros t Ht. unfold head_at, getitem. rewrite Hw.
    destruct (nth_error (I_head self) t) eqn:Hi; [eauto|].
    apply nth_error_None in Hi. lia.
Qed.

(** ** Every row of a run *)

Lemma setrow_as_row (m m' : matrix) (i k n : nat) (v : vec) :
  shape m k n -> setrow m i v = Ok m' ->
  m' = replace_nth m i (as_row n v) /\ (i < k)%nat.
Proof.
  intros Hm Hset.
  destruct (setrow_shape _ _ _ _ _ _ Hm Hset) as [_ Hi]. split; [|exact Hi].
  unfold setrow in Hset. unfold as_row.
  destruct (nth_error m i) as [old|] eqn:Hold; [|discriminate].
  rewrite <- (shape_row _ _ _ _ _ Hm Hold).
  destruct (length v =? length old)%nat.
  - now injection Hset as <-.
  - destruct v as [|c [|]]; try discriminate. now injection Hset as <-.
Qed.

Lemma as_row_length (n : nat) (v : vec) (m m' : matrix) (i k : nat) :
  shape m k n -> setrow m i v = Ok m' -> length (as_row n v) = n.
Proof.
  intros Hm Hset.
  destruct (setrow_inv _ _ _ _ Hset) as (old & w & Hold & _ & _).
  pose proof (shape_row _ _ _ _ _ Hm Hold) as Hn.
  unfold setrow in Hset. rewrite Hold, Hn in Hset. unfold as_row.
  destruct (Nat.eqb_spec (length v) n); [assumption|].
  destruct v as [|c [|]]; try discriminate. apply repeat_length.
Qed.

Lemma as_row_Forall (P : R -> Prop) (n : nat) (v : vec) :
  Forall P v -> Forall P (as_row n v).
Proof.
  intros Hv. unfold as_row. destruct (length v =? n)%nat; [assumption|].
  destruct v as [|c [|]]; try assumption.
  apply Forall_forall. intros y Hy. apply repeat_spec in Hy. subst y.
  now inversion Hv.
Qed.

Lemma as_row_map (f : R -> R) (n : nat) (v : vec) :
  as_row n (map f v) = map f (as_row n v).
Proof.
  unfold as_row. rewrite length_map.
  destruct (length v =? n)%nat; [reflexivity|].
  destruct v as [|c [|]]; try reflexivity.
  simpl. now rewrite map_repeat.
Qed.

Lemma rate_as_row (self : sim) (n : nat) (v : vec) :
  as_row n (rate self v) = rate self (as_row n v).
Proof. unfold rate, vscale. now rewrite !as_row_map. Qed.

Lemma valid_probability_inv (p : R) :
  valid_probability p = true -> 0 <= p <= 1.
Proof.
  unfold valid_probability.
  destruct (Rle_dec 0 p); [|discriminate].
  destruct (Rle_dec p 1); [auto|discriminate].
Qed.

Lemma np_random_binomial_inv (ps s : vec) (k k' : rng) :
  np_random_binomial ps k = Ok (s, k') ->
  Forall (fun p => 0 <= p <= 1) ps /\ Forall binary s /\
  length s = length ps.
Proof.
  unfold np_random_binomial.
  destruct (forallb valid_probability ps) eqn:Hps; [|discriminate].
  intros H; injection H as H.
  pose proof (bernoulli_trials_binary ps k) as Hb.
  pose proof (bernoulli_trials_length ps k) as Hl.
  rewrite H in Hb, Hl. simpl in Hb, Hl.
  split; [|split; assumption].
  apply Forall_forall. intros q Hq. apply valid_probability_inv.
  rewrite forallb_forall in Hps. now apply Hps.
Qed.

(** What the statements before the loop leave in row [0] and in the
    positions. *)
Lemma prologue_rows (self : sim) (f : callable) (k0 k1 : rng) (a : arrays) :
  prologue self f k0 = Ok (a, k1) ->
  exists hl sl hr sr ka kb kc x,
    call0 f k0 = Ok (hl, ka) /\
    np_random_binomial (vtimes (rate self hl) (delta_t self)) ka
      = Ok (sl, kb) /\
    call0 f kb = Ok (hr, kc) /\
    np_random_binomial (vtimes (rate self hr) (delta_t self)) kc
      = Ok (sr, k1) /\
    initialize_positions self = Ok x /\ xL a = x /\ xR a = x /\
    nth_error (hL a) 0 = Some (as_row (Z.to_nat (N self)) hl) /\
    nth_error (rL a) 0 = Some (as_row (Z.to_nat (N self)) (rate self hl)) /\
    nth_error (sL a) 0 = Some (as_row (Z.to_nat (N self)) sl) /\
    nth_error (hR a) 0 = Some (as_row (Z.to_nat (N self)) hr) /\
    nth_error (rR a) 0 = Some (as_row (Z.to_nat (N self)) (rate self hr)) /\
    nth_error (sR a) 0 = Some (as_row (Z.to_nat (N self)) sr).
Proof.
  unfold prologue. intros H.
  bind_inv H iL. destruct iL as [[hL0 rL0] sL0].
  bind_inv H iR. destruct iR as [[hR0 rR0] sR0].
  bind_inv H xL0. bind_inv H xR0.
  bind_inv H fL. destruct fL as [[hl0 rl0] sl0].
  bind_inv H hL1. bind_inv H rL1. bind_inv H sL1.
  bind_inv H fR. destruct fR as [[hr0 rr0] sr0].
  bind_inv H hR1. bind_inv H rR1. bind_inv H sR1.
  unfold ret in H. injection H as <- <-.
  destruct (initialize_simulation_inv _ _ _ _ HiL)
    as (ns & Hns & Hns0 & HN & ShL & SrL & SsL).
  destruct (initialize_simulation_inv _ _ _ _ HiR)
    as (ns' & Hns' & _ & _ & ShR & SrR & SsR).
  assert (ns' = ns) by congruence. subst ns'.
  destruct (setrow_as_row _ _ _ _ _ _ ShL HhL1) as [-> Hpos].
  destruct (setrow_as_row _ _ _ _ _ _ SrL HrL1) as [-> _].
  destruct (setrow_as_row _ _ _ _ _ _ SsL HsL1) as [-> _].
  destruct (setrow_as_row _ _ _ _ _ _ ShR HhR1) as [-> _].
  destruct (setrow_as_row _ _ _ _ _ _ SrR HrR1) as [-> _].
  destruct (setrow_as_row _ _ _ _ _ _ SsR HsR1) as [-> _].
  unfold first_step_update in HfL, HfR.
  bind_inv HfL vl. bind_inv HfL zl. unfold ret in HfL.
  injection HfL as <- <- <- <-.
  bind_inv HfR vr. bind_inv HfR zr. unfold ret in HfR.
  injection HfR as <- <- <- <-.
  exists vl, zl, vr, zr. do 3 eexists. exists xL0.
  cbn [hL rL sL hR rR sR xL xR].
  rewrite !replace_nth_same
    by (destruct ShL, SrL, SsL, ShR, SrR, SsR; lia).
  repeat (split; [first [eassumption | reflexivity | congruence]|]).
  reflexivity.
Qed.

Lemma run_first_row (self : sim) (f : callable) (k0 k1 : rng) (a : arrays) :
  run self f k0 = Ok (a, k1) ->
  exists hl sl hr sr ka kb kc kd x,
    call0 f k0 = Ok (hl, ka) /\
    np_random_binomial (vtimes (rate self hl) (delta_t self)) ka
      = Ok (sl, kb) /\
    call0 f kb = Ok (hr, kc) /\
    np_random_binomial (vtimes (rate self hr) (delta_t self)) kc
      = Ok (sr, kd) /\
    initialize_positions self = Ok x /\ xL a = x /\ xR a = x /\
    nth_error (hL a) 0 = Some (as_row (Z.to_nat (N self)) hl) /\
    nth_error (rL a) 0 = Some (as_row (Z.to_nat (N self)) (rate self hl)) /\
    nth_error (sL a) 0 = Some (as_row (Z.to_nat (N self)) sl) /\
    nth_error (hR a) 0 = Some (as_row (Z.to_nat (N self)) hr) /\
    nth_error (rR a) 0 = Some (as_row (Z.to_nat (N self)) (rate self hr)) /\
    nth_error (sR a) 0 = Some (as_row (Z.to_nat (N self)) sr).
Proof.
  rewrite run_prologue. intros H. bind_inv H a0.
  destruct (prologue_inv self f k0 k a0 Ha0) as (ns & Hns & Hpos & HN & Hsh).
  destruct (prologue_rows self f k0 k a0 Ha0)
    as (hl & sl & hr & sr & ka & kb & kc & x & H1 & H2 & H3 & H4 & H5 & H6
        & H7 & H8 & H9 & H10 & H11 & H12 & H13).
  assert (Hlen : length (hR a0) = Z.to_nat ns) by apply Hsh.
  rewrite Hlen in H.
  apply (for_loop_inv self (Z.to_nat ns) (Z.to_nat (N self))) in H;
    [|assumption|lia].
  destruct H as (_ & (G1 & G2 & G3 & G4 & G5 & G6 & G7 & G8) & _).
  exists hl, sl, hr, sr, ka, kb, kc, k, x.
  rewrite G1, G2, G3, G4, G5, G6, G7, G8 by lia.
  repeat (split; [assumption|]). assumption.
Qed.

(** Row [j] of a run that returns: the rate is [r_0 * g] of the potential,
    every spike probability was accepted by the sampler, and every spike is
    [0] or [1]. *)
Lemma run_every_row (self : sim) (f : callable) (k0 k1 : rng) (a : arrays)
    (j : nat) :
  run self f k0 = Ok (a, k1) -> (j < length (hL a))%nat ->
  exists hLj hRj sLj sRj,
    nth_error (hL a) j = Some hLj /\ nth_error (hR a) j = Some hRj /\
    nth_error (rL a) j = Some (rate self hLj) /\
    nth_error (rR a) j = Some (rate self hRj) /\
    nth_error (sL a) j = Some sLj /\ nth_error (sR a) j = Some sRj /\
    length hLj = Z.to_nat (N self) /\ length hRj = Z.to_nat (N self) /\
    length sLj = Z.to_nat (N self) /\ length sRj = Z.to_nat (N self) /\
    Forall (fun p => 0 <= p <= 1) (vtimes (rate self hLj) (delta_t self)) /\
    Forall (fun p => 0 <= p <= 1) (vtimes (rate self hRj) (delta_t self)) /\
    Forall binary sLj /\ Forall binary sRj.
Proof.
  intros Hrun Hj.
  destruct (run_trace self f k0 k1 a Hrun)
    as (ns & Hns & Hpos & HN & Ha & Hrel).
  pose proof Ha as (HhL & HrL & HsL & HhR & HrR & HsR & _).
  assert (Hk : length (hL a) = Z.to_nat ns) by apply HhL.
  destruct j as [|t].
  - destruct (run_first_row self f k0 k1 a Hrun)
      as (hl & sl & hr & sr & ka & kb & kc & kd & x & H1 & H2 & H3 & H4
          & _ & _ & _ & H8 & H9 & H10 & H11 & H12 & H13).
    destruct (np_random_binomial_inv _ _ _ _ H2) as (PL & BL & _).
    destruct (np_random_binomial_inv _ _ _ _ H4) as (PR & BR & _).
    exists (as_row (Z.to_nat (N self)) hl), (as_row (Z.to_nat (N self)) hr),
      (as_row (Z.to_nat (N self)) sl), (as_row (Z.to_nat (N self)) sr).
    pose proof (shape_row _ _ _ _ _ HhL H8) as L1.
    pose proof (shape_row _ _ _ _ _ HhR H11) as L2.
    pose proof (shape_row _ _ _ _ _ HsL H10) as L3.
    pose proof (shape_row _ _ _ _ _ HsR H13) as L4.
    rewrite <- !rate_as_row. unfold vtimes. rewrite <- !as_row_map.
    repeat (split; [first [assumption | now apply as_row_Forall]|]).
    now apply as_row_Forall.
  - destruct (Hrel t ltac:(lia))
      as (hLt & hRt & IL & IR & H1 & H2 & H3 & H4 & H5 & H6 & H7 & H8
          & H9 & H10 & ka & kb & kc & sLn & sRn & D1 & D2 & D3 & D4).
    destruct (np_random_binomial_inv _ _ _ _ D1) as (PL & BL & _).
    destruct (np_random_binomial_inv _ _ _ _ D2) as (PR & BR & _).
    exists (euler self hLt IL), (euler self hRt IR), sLn, sRn.
    pose proof (shape_row _ _ _ _ _ HhL H7) as L1.
    pose proof (shape_row _ _ _ _ _ HhR H9) as L2.
    pose proof (shape_row _ _ _ _ _ HsL D3) as L3.
    pose proof (shape_row _ _ _ _ _ HsR D4) as L4.
    repeat (split; [assumption|]).
    assumption.
Qed.

(** X1.  Every entry of the spike arrays of a run that returns is [0] or
    [1], in row [0] as in the rows written by [update]. *)
Theorem spikes_are_binary (self : sim) (f : callable) (k0 k1 : rng)
    (a : arrays) :
  run self f k0 = Ok (a, k1) ->
  forall j i, (j < length (hL a))%nat -> (i < Z.to_nat (N self))%nat ->
    binary (nth i (nth j (sL a) []) 0) /\
    binary (nth i (nth j (sR a) []) 0).
Proof.
  intros Hrun j i Hj Hi.
  destruct (run_every_row self f k0 k1 a j Hrun Hj)
    as (hLj & hRj & sLj & sRj & _ & _ & _ & _ & HsL & HsR & _ & _ & LL & LR
        & _ & _ & BL & BR).
  rewrite (nth_error_nth _ _ [] HsL), (nth_error_nth _ _ [] HsR).
  rewrite Forall_forall in BL, BR.
  split; [apply BL|apply BR]; apply nth_In; congruence.
Qed.

(** X2.  In a run that returns, every rate is [r_0 * g(h, alpha, beta)] of
    the potential of the same row and neuron, and every spike probability
    [r * delta_t] lies in [[0, 1]]: the sampler would have raised
    otherwise. *)
Theorem rates_follow_potentials (self : sim) (f : callable) (k0 k1 : rng)
    (a : arrays) :
  run self f k0 = Ok (a, k1) ->
  forall j i, (j < length (hL a))%nat -> (i < Z.to_nat (N self))%nat ->
    nth i (nth j (rL a) []) 0 =
      r_0 self * g (nth i (nth j (hL a) []) 0) (alpha self) (beta self) /\
    nth i (nth j (rR a) []) 0 =
      r_0 self * g (nth i (nth j (hR a) []) 0) (alpha self) (beta self) /\
    0 <= nth i (nth j (rL a) []) 0 * delta_t self <= 1 /\
    0 <= nth i (nth j (rR a) []) 0 * delta_t self <= 1.
Proof.
  intros Hrun j i Hj Hi.
  destruct (run_every_row self f k0 k1 a j Hrun Hj)
    as (hLj & hRj & sLj & sRj & HhL & HhR & HrL & HrR & _ & _ & LL & LR
        & _ & _ & PL & PR & _).
  rewrite (nth_error_nth _ _ [] HhL), (nth_error_nth _ _ [] HhR),
    (nth_error_nth _ _ [] HrL), (nth_error_nth _ _ [] HrR).
  rewrite !rate_nth by congruence.
  split; [reflexivity|]. split; [reflexivity|].
  rewrite Forall_forall in PL, PR.
  rewrite <- !rate_nth by congruence.
  split.
  - rewrite <- (map_nth_in (fun x => x * delta_t self))
      by (rewrite rate_length; congruence).
    apply PL, nth_In.
    unfold vtimes. rewrite length_map, rate_length. congruence.
  - rewrite <- (map_nth_in (fun x => x * delta_t self))
      by (rewrite rate_length; congruence).
    apply PR, nth_In.
    unfold vtimes. rewrite length_map, rate_length. congruence.
Qed.

(** X3.  Row [0] of a run that returns comes from the initializer, called
    once per population: the left potentials are its output at the initial
    generator state, the right ones its output at the state left by the
    sampling of the left spikes; an output of one entry is stretched over
    the row. *)
Theorem first_rows_from_initializer (self : sim) (f : callable)
    (k0 k1 : rng) (a : arrays) :
  run self f k0 = Ok (a, k1) ->
  exists hl sl hr ka kb kc,
    call0 f k0 = Ok (hl, ka) /\
    np_random_binomial (vtimes (rate self hl) (delta_t self)) ka
      = Ok (sl, kb) /\
    call0 f kb = Ok (hr, kc) /\
    nth 0 (hL a) [] = as_row (Z.to_nat (N self)) hl /\
    nth 0 (sL a) [] = as_row (Z.to_nat (N self)) sl /\
    nth 0 (hR a) [] = as_row (Z.to_nat (N self)) hr /\
    (length hl = Z.to_nat (N self) -> nth 0 (hL a) [] = hl) /\
    (length hr = Z.to_nat (N self) -> nth 0 (hR a) [] = hr).
Proof.
  intros Hrun.
  destruct (run_first_row self f k0 k1 a Hrun)
    as (hl & sl & hr & sr & ka & kb & kc & kd & x & H1 & H2 & H3 & _
        & _ & _ & _ & H8 & _ & H10 & H11 & _).
  exists hl, sl, hr, ka, kb, kc.
  rewrite (nth_error_nth _ _ [] H8), (nth_error_nth _ _ [] H10),
    (nth_error_nth _ _ [] H11).
  repeat (split; [first [assumption | reflexivity]|]).
  split; intros Hl; unfold as_row; now rewrite Hl, Nat.eqb_refl.
Qed.

(** X4.  In a run that returns the two populations have the same positions,
    those of [initialize_positions]; the loop does not touch them. *)
Theorem populations_share_positions (self : sim) (f : callable)
    (k0 k1 : rng) (a : arrays) :
  run self f k0 = Ok (a, k1) ->
  initialize_positions self = Ok (xL a) /\ xR a = xL a /\
  length (xL a) = Z.to_nat (N self).
Proof.
  intros Hrun.
  destruct (run_first_row self f k0 k1 a Hrun)
    as (hl & sl & hr & sr & ka & kb & kc & kd & x & _ & _ & _ & _
        & Hx & HxL & HxR & _).
  subst x. split; [assumption|]. split; [congruence|].
  eapply np_linspace_length. exact Hx.
Qed.

(** ** More on the recurrent input *)

Lemma vsum_map_linear (F G : nat -> R) (c d : R) (l : list nat) :
  vsum (map (fun i => c * F i + d * G i) l) =
  c * vsum (map F l) + d * vsum (map G l).
Proof.
  unfold vsum. induction l as [|i l IH]; simpl; [ring|].
  rewrite IH. ring.
Qed.

Lemma weighted_mean_cos_shift (u : R) (x r : vec) :
  weighted_mean (fun y => cos (u - y)) x r =
  cos u * weighted_mean cos x r + sin u * weighted_mean sin x r.
Proof.
  unfold weighted_mean.
  rewrite (map_ext (fun i => cos (u - nth i x 0) * nth i r 0)
             (fun i => cos u * (cos (nth i x 0) * nth i r 0)
                       + sin u * (sin (nth i x 0) * nth i r 0)))
    by (intros i; rewrite cos_minus; ring).
  rewrite vsum_map_linear. unfold Rdiv. ring.
Qed.

(** X5.  The recurrent input is a cosine kernel of the angular distance: on
    arrays of one common length, neuron [i] of the left population receives
    [J] times the mean over the neurons [j] of both populations of
    [cos(x_L[i] + theta - x[j]) * rate[j]]; on the right, of
    [cos(x_R[i] - theta - x[j]) * rate[j]]. *)
Theorem recurrent_input_is_cosine_kernel (xL xR SL SR : vec) (J theta : R)
    (n : nat) :
  length xL = n -> length xR = n -> length SL = n -> length SR = n ->
  exists IL IR,
    two_population_recurrent_input xL xR SL SR J theta = Ok (IL, IR) /\
    length IL = n /\ length IR = n /\
    forall i, (i < n)%nat ->
      nth i IL 0 =
        J * (weighted_mean (fun y => cos (nth i xL 0 + theta - y)) xL SL
             + weighted_mean (fun y => cos (nth i xL 0 + theta - y)) xR SR)
      /\
      nth i IR 0 =
        J * (weighted_mean (fun y => cos (nth i xR 0 - theta - y)) xL SL
             + weighted_mean (fun y => cos (nth i xR 0 - theta - y)) xR SR).
Proof.
  intros HxL HxR HSL HSR.
  rewrite (recurrent_input_shaped xL xR SL SR J theta n) by assumption.
  do 2 eexists. split; [reflexivity|].
  rewrite !length_map. split; [assumption|]. split; [assumption|].
  intros i Hi. rewrite !map_nth_in by congruence.
  rewrite !weighted_mean_cos_shift. unfold pooled. split; ring.
Qed.

Lemma broadcast_mismatch (op : R -> R -> R) (a b : vec) :
  length a <> length b -> length a <> 1%nat -> length b <> 1%nat ->
  broadcast op a b = Raise ValueError.
Proof.
  intros Hab Ha Hb. unfold broadcast.
  destruct (Nat.eqb_spec (length a) (length b)); [contradiction|].
  destruct a as [|x [|x' a]]; destruct b as [|y [|y' b]];
    simpl in *; congruence.
Qed.

Lemma broadcast_error (op : R -> R -> R) (a b : vec) (e : exn) :
  broadcast op a b = Raise e -> e = ValueError.
Proof.
  unfold broadcast. destruct (length a =? length b)%nat; [discriminate|].
  destruct a as [|x [|x' a]]; destruct b as [|y [|y' b]];
    intros H; congruence.
Qed.

(** X6.  [two_population_recurrent_input] raises [ValueError] when, for one
    of the populations, the position and rate arrays have different lengths
    and neither has a single entry (NumPy cannot broadcast them). *)
Theorem recurrent_input_shape_mismatch (xL xR SL SR : vec) (J theta : R) :
  (length xL <> length SL /\ length xL <> 1%nat /\ length SL <> 1%nat) \/
  (length xR <> length SR /\ length xR <> 1%nat /\ length SR <> 1%nat) ->
  two_population_recurrent_input xL xR SL SR J theta = Raise ValueError.
Proof.
  intros Hmis. unfold two_population_recurrent_input.
  destruct (broadcast Rmult (map cos xL) SL) as [cL|e] eqn:HcL.
  - destruct Hmis as [(H1 & H2 & H3)|(H1 & H2 & H3)].
    + rewrite broadcast_mismatch in HcL
        by (rewrite ?length_map; assumption).
      discriminate.
    + cbn [rbind]. rewrite (broadcast_mismatch Rmult (map cos xR))
        by (rewrite ?length_map; assumption).
      reflexivity.
  - cbn [rbind]. now rewrite (broadcast_error _ _ _ _ HcL).
Qed.

(** X7.  The pulse and the head drive cancel between the populations: in a
    run that returns, the left and right inputs of neuron [i] at step [t]
    add up to [2 * J * cos(theta) * (cos(x[i]) * C + sin(x[i]) * S)], the
    sum of the recurrent inputs alone. *)
Theorem drives_cancel_in_sum (self : sim) (f : callable) (k0 k1 : rng)
    (a : arrays) :
  run self f k0 = Ok (a, k1) ->
  forall t, (S t < length (hL a))%nat ->
    let SL := vdiv_scalar (nth t (sL a) []) (delta_t self) in
    let SR := vdiv_scalar (nth t (sR a) []) (delta_t self) in
    let Cm := weighted_mean cos (xL a) SL + weighted_mean cos (xR a) SR in
    let Sm := weighted_mean sin (xL a) SL + weighted_mean sin (xR a) SR in
    exists IL IR,
      step_input self a t = Ok (IL, IR) /\
      forall i, (i < Z.to_nat (N self))%nat ->
        nth i IL 0 + nth i IR 0 =
          2 * J self * cos (theta self)
          * (cos (nth i (xL a) 0) * Cm + sin (nth i (xL a) 0) * Sm).
Proof.
  intros Hrun t Ht. cbv zeta.
  destruct (run_step_input self f k0 k1 a t Hrun Ht)
    as (IL0 & IR0 & IL & IR & d & H1 & H2 & H3 & HL & HR & H4).
  destruct (run_first_row self f k0 k1 a Hrun)
    as (_ & _ & _ & _ & _ & _ & _ & _ & x & _ & _ & _ & _
        & Hx & HxL & HxR & _).
  pose proof (np_linspace_length _ _ _ _ Hx) as Hlx.
  destruct (run_every_row self f k0 k1 a t Hrun ltac:(lia))
    as (_ & _ & sLt & sRt & _ & _ & _ & _ & HsL & HsR & _ & _ & LL & LR & _).
  rewrite (nth_error_nth _ _ [] HsL), (nth_error_nth _ _ [] HsR) in *.
  rewrite (recurrent_input_shaped _ _ _ _ _ _ (Z.to_nat (N self))) in H1
    by (unfold vdiv_scalar; rewrite ?length_map; congruence).
  injection H1 as <- <-. exists IL, IR. split; [assumption|].
  intros i Hi. destruct (H4 i Hi) as [-> ->].
  rewrite !map_nth_in by congruence.
  rewrite HxL, HxR. unfold pooled.
  rewrite cos_plus, cos_minus, sin_plus, sin_minus. ring.
Qed.

(** ** Symmetries of a run *)

Lemma positions_endpoints (self : sim) (x : vec) :
  (2 <= N self)%Z -> initialize_positions self = Ok x ->
  nth 0 x 0 = 0 /\ nth (Z.to_nat (N self) - 1) x 0 = 2 * PI.
Proof.
  intros HN Hx. unfold initialize_positions in Hx.
  rewrite (np_linspace_nth _ _ _ _ 0 HN Hx) by lia.
  rewrite (np_linspace_nth _ _ _ _ (Z.to_nat (N self) - 1) HN Hx) by lia.
  assert (Hcast : INR (Z.to_nat (N self) - 1) = IZR (N self - 1)).
  { rewrite INR_IZR_INZ. f_equal. lia. }
  rewrite Hcast. simpl.
  split; [ring|]. field. apply not_0_IZR. lia.
Qed.

(** X8.  Because the positions run from [0] to [2pi] inclusive, the first
    and the last neuron of a population sit at the same angle: with at
    least two neurons they receive the same input current at every step of
    a run that returns. *)
Theorem ring_endpoints_share_input (self : sim) (f : callable) (k0 k1 : rng)
    (a : arrays) :
  (2 <= N self)%Z -> run self f k0 = Ok (a, k1) ->
  forall t, (S t < length (hL a))%nat ->
    exists IL IR,
      step_input self a t = Ok (IL, IR) /\
      nth 0 IL 0 = nth (Z.to_nat (N self) - 1) IL 0 /\
      nth 0 IR 0 = nth (Z.to_nat (N self) - 1) IR 0.
Proof.
  intros HN Hrun t Ht.
  destruct (run_step_input self f k0 k1 a t Hrun Ht)
    as (IL0 & IR0 & IL & IR & d & H1 & H2 & H3 & HL & HR & H4).
  destruct (run_first_row self f k0 k1 a Hrun)
    as (_ & _ & _ & _ & _ & _ & _ & _ & x & _ & _ & _ & _
        & Hx & HxL & HxR & _).
  pose proof (np_linspace_length _ _ _ _ Hx) as Hlx.
  destruct (positions_endpoints self x HN Hx) as [Hfirst Hlast].
  destruct (run_every_row self f k0 k1 a t Hrun ltac:(lia))
    as (_ & _ & sLt & sRt & _ & _ & _ & _ & HsL & HsR & _ & _ & LL & LR & _).
  rewrite (nth_error_nth _ _ [] HsL), (nth_error_nth _ _ [] HsR) in *.
  rewrite (recurrent_input_shaped _ _ _ _ _ _ (Z.to_nat (N self))) in H1
    by (unfold vdiv_scalar; rewrite ?length_map; congruence).
  injection H1 as <- <-. exists IL, IR. split; [assumption|].
  destruct (H4 0%nat ltac:(lia)) as [-> ->].
  destruct (H4 (Z.to_nat (N self) - 1)%nat ltac:(lia)) as [-> ->].
  rewrite !map_nth_in by (rewrite ?HxL, ?HxR, Hlx; lia).
  rewrite HxL, HxR, Hfirst, Hlast.
  rewrite !cos_plus, !cos_minus, !sin_plus, !sin_minus.
  rewrite cos_2PI, sin_2PI, cos_0, sin_0. split; ring.
Qed.

Lemma centered_voltage_pure (obj : sim) (k : rng) :
  centered_voltage obj k =
  match np_linspace 0 1 (N obj) with
  | Ok u => Ok (map (fun u => exp (-0.5 * ((u - 0.5) / 0.05) ^ 2)) u, k)
  | Raise e => Raise e
  end.
Proof.
  unfold centered_voltage. destruct (np_linspace 0 1 (N obj)); reflexivity.
Qed.

Lemma symmetric_inputs (self : sim) (a : arrays) (t : nat) (IL IR : vec)
    (k n : nat) :
  theta self = 0 -> I_ext self = false -> w_head self = None ->
  well_shaped a k n -> (t < k)%nat -> xR a = xL a ->
  step_input self a t = Ok (IL, IR) -> IL = IR.
Proof.
  intros Hth Hext Hw Ha Ht Hx Hin.
  pose proof Ha as (_ & _ & HsL & _ & _ & HsR & _).
  destruct (shape_has_row _ _ _ t HsL Ht) as [sLt HLt].
  destruct (shape_has_row _ _ _ t HsR Ht) as [sRt HRt].
  rewrite (step_input_shaped self a t k n sLt sRt Ha HLt HRt) in Hin.
  unfold head_at, pulse_at in Hin. rewrite Hw, Hext in Hin.
  cbn [rbind] in Hin. cbv zeta in Hin. injection Hin as <- <-.
  unfold recurrent_L, recurrent_R. rewrite Hx, Hth, !map_map.
  apply map_ext. intros x. rewrite ?Rplus_0_r, ?Rminus_0_r. reflexivity.
Qed.

(** X9.  With [theta = 0], no pulse, no head population and the centered
    initializer, the two populations have the same potentials and the same
    rates at every step of a run that returns: only their spikes differ. *)
Theorem symmetric_populations_coincide (self obj : sim) (k0 k1 : rng)
    (a : arrays) :
  theta self = 0 -> I_ext self = false -> w_head self = None ->
  run self (Method_centered_voltage obj) k0 = Ok (a, k1) ->
  forall j, (j < length (hL a))%nat ->
    nth j (hL a) [] = nth j (hR a) [] /\
    nth j (rL a) [] = nth j (rR a) [].
Proof.
  intros Hth Hext Hw Hrun.
  destruct (run_trace self _ k0 k1 a Hrun)
    as (ns & Hns & Hpos & HN & Ha & Hrel).
  assert (Hk : length (hL a) = Z.to_nat ns) by apply Ha.
  destruct (run_first_row self _ k0 k1 a Hrun)
    as (hl & sl & hr & sr & ka & kb & kc & kd & x & H1 & _ & H3 & _
        & Hx & HxL & HxR & H8 & _ & _ & H11 & _).
  assert (Hh : forall j, (j < length (hL a))%nat ->
            nth j (hL a) [] = nth j (hR a) []).
  { induction j as [|t IH]; intros Hj.
    - rewrite (nth_error_nth _ _ [] H8), (nth_error_nth _ _ [] H11).
      simpl in H1, H3. rewrite centered_voltage_pure in H1, H3.
      destruct (np_linspace 0 1 (N obj)); [|discriminate].
      injection H1 as <- _. injection H3 as <- _. reflexivity.
    - specialize (IH ltac:(lia)).
      destruct (Hrel t ltac:(lia))
        as (hLt & hRt & IL & IR & G1 & G2 & G3 & _ & _ & _ & G7 & _
            & G9 & _).
      rewrite (nth_error_nth _ _ [] G1), (nth_error_nth _ _ [] G2) in IH.
      rewrite (nth_error_nth _ _ [] G7), (nth_error_nth _ _ [] G9).
      rewrite (symmetric_inputs self a t IL IR _ _ Hth Hext Hw Ha
                 ltac:(lia) ltac:(congruence) G3).
      now rewrite IH. }
  intros j Hj. split; [now apply Hh|].
  destruct (run_every_row self _ k0 k1 a j Hrun Hj)
    as (hLj & hRj & _ & _ & HhL & HhR & HrL & HrR & _).
  specialize (Hh j Hj).
  rewrite (nth_error_nth _ _ [] HhL), (nth_error_nth _ _ [] HhR) in Hh.
  rewrite (nth_error_nth _ _ [] HrL), (nth_error_nth _ _ [] HrR).
  now rewrite Hh.
Qed.

(** ** Exceptions of a run *)

Lemma advance_zero_tau (self : sim) (t : nat) (h r s : matrix) (ht I : vec)
    (k : rng) :
  tau self = 0 -> advance self t h r s ht I k = Raise ZeroDivisionError.
Proof.
  intros Htau. unfold advance.
  destruct (Req_dec_T (tau self) 0); [reflexivity|contradiction].
Qed.

(** X10.  A zero time constant is only met by [update]: with exactly one
    step the loop is empty and the run returns the arrays of the statements
    before it; with two steps or more those statements still succeed and
    the first iteration raises [ZeroDivisionError]. *)
Theorem zero_time_constant (self : sim) (f : callable) (ns : Z) (k0 : rng) :
  num_steps self = Ok ns -> (0 <= N self)%Z -> tau self = 0 ->
  probabilities_ok self -> initializer_ok self f ->
  (ns = 1%Z ->
   exists a k1,
     prologue self f k0 = Ok (a, k1) /\ run self f k0 = Ok (a, k1)) /\
  ((2 <= ns)%Z -> (exists d, head_at self 0 = Ok d) ->
   (exists a k1, prologue self f k0 = Ok (a, k1)) /\
   run self f k0 = Raise ZeroDivisionError).
Proof.
  intros Hns HN Htau Hp Hf. split.
  - intros ->.
    destruct (prologue_total self f 1 k0 Hns ltac:(lia) HN Hp Hf)
      as (a & k1 & Hpro).
    destruct (prologue_inv self f k0 k1 a Hpro)
      as (ns' & Hns' & _ & _ & Hsh).
    assert (ns' = 1%Z) by congruence. subst ns'.
    exists a, k1. split; [exact Hpro|].
    rewrite run_prologue, (bind_Ok _ _ _ _ _ Hpro).
    replace (length (hR a)) with 1%nat by (symmetry; apply Hsh).
    reflexivity.
  - intros Hns2 [d Hd].
    destruct (prologue_total self f ns k0 Hns ltac:(lia) HN Hp Hf)
      as (a & k1 & Hpro).
    destruct (prologue_inv self f k0 k1 a Hpro)
      as (ns' & Hns' & _ & _ & Hsh).
    assert (ns' = ns) by congruence. subst ns'.
    split; [eauto|].
    rewrite run_prologue, (bind_Ok _ _ _ _ _ Hpro).
    replace (length (hR a)) with (Z.to_nat ns) by (symmetry; apply Hsh).
    replace (Z.to_nat ns - 1)%nat with (S (Z.to_nat ns - 2)) by lia.
    cbn [seq for_loop].
    pose proof Hsh as (HhL & _ & HsL & HhR & _ & HsR & HxL & HxR).
    destruct (shape_has_row _ _ _ 0 HhL) as [hLt HLt]; [lia|].
    destruct (shape_has_row _ _ _ 0 HhR) as [hRt HRt]; [lia|].
    destruct (shape_has_row _ _ _ 0 HsL) as [sLt HsLt]; [lia|].
    destruct (shape_has_row _ _ _ 0 HsR) as [sRt HsRt]; [lia|].
    unfold bind at 1. unfold loop_body.
    pose proof (step_input_shaped self a 0 _ _ sLt sRt Hsh HsLt HsRt) as Hin.
    rewrite Hd in Hin. cbn [rbind] in Hin. cbv zeta in Hin.
    rewrite Hin, bind_lift_Ok.
    rewrite (update_shaped self a 0 _ _ _ _ hLt hRt k1 Hsh); auto;
      try lia;
      try (unfold recurrent_L, recurrent_R; now rewrite !length_map).
    now rewrite advance_zero_tau.
Qed.

Lemma invalid_row (self : sim) (h : vec) (v : R) :
  In v h ->
  ~ (0 <= r_0 self * g v (alpha self) (beta self) * delta_t self <= 1) ->
  forallb valid_probability (vtimes (rate self h) (delta_t self)) = false.
Proof.
  intros Hin Hbad.
  destruct (forallb valid_probability
              (vtimes (rate self h) (delta_t self))) eqn:Hall;
    [|reflexivity].
  exfalso. apply Hbad. apply valid_probability_inv.
  rewrite forallb_forall in Hall. apply Hall.
  unfold vtimes, rate, vscale. rewrite !map_map.
  apply in_map_iff. exists v. split; [reflexivity|assumption].
Qed.

(** X11.  Spike probabilities are checked by the sampler only: when the
    first initial potentials give some [r_0 * g(h) * delta_t] outside
    [[0, 1]], the run raises [ValueError] before its loop, whatever the
    number of steps. *)
Theorem invalid_probability_raises (self : sim) (f : callable) (ns : Z)
    (k0 k : rng) (h0 : vec) (v : R) :
  num_steps self = Ok ns -> (0 <= ns)%Z -> (0 <= N self)%Z ->
  call0 f k0 = Ok (h0, k) -> In v h0 ->
  ~ (0 <= r_0 self * g v (alpha self) (beta self) * delta_t self <= 1) ->
  prologue self f k0 = Raise ValueError /\
  run self f k0 = Raise ValueError /\
  simulation self (Some f) k0 = Raise ValueError.
Proof.
  intros Hns Hpos HN Hcall Hin Hbad.
  assert (Hpro : prologue self f k0 = Raise ValueError).
  { assert (Hinit : initialize_simulation self =
              Ok (repeat (repeat 0 (Z.to_nat (N self))) (Z.to_nat ns),
                  repeat (repeat 0 (Z.to_nat (N self))) (Z.to_nat ns),
                  repeat (repeat 0 (Z.to_nat (N self))) (Z.to_nat ns))).
    { unfold initialize_simulation. rewrite Hns. cbn [rbind].
      rewrite np_zeros_total by lia. reflexivity. }
    destruct (np_linspace_total 0 (2 * PI) (N self) HN) as [x Hx].
    unfold prologue, initialize_positions.
    rewrite Hinit, Hx, !bind_lift_Ok. cbv beta iota.
    rewrite ?bind_lift_Ok. unfold bind at 1. unfold first_step_update.
    rewrite (bind_Ok _ _ _ _ _ Hcall). unfold bind at 1.
    unfold np_random_binomial.
    now rewrite (invalid_row self h0 v Hin Hbad). }
  split; [exact Hpro|]. now apply prologue_Raise.
Qed.

(** X12.  [update] cannot write past the last row: on arrays of [k] rows and
    a non-zero time constant, a step [t] with [t + 1 >= k] raises
    [IndexError]. *)
Theorem update_past_last_row (self : sim) (a : arrays) (t k n : nat)
    (IL IR : vec) (k0 : rng) :
  well_shaped a k n -> length IL = n -> length IR = n ->
  (k <= S t)%nat -> tau self <> 0 ->
  update self a t IL IR k0 = Raise IndexError.
Proof.
  intros Ha HIL HIR Hk Htau.
  pose proof Ha as (HhL & _).
  unfold update.
  destruct (nth_error (hL a) t) as [hLt|] eqn:HLt.
  - pose proof (shape_row _ _ _ _ _ HhL HLt) as HlL.
    rewrite !(getitem_Some _ _ _ HLt), !bind_lift_Ok.
    unfold py_div. destruct (Req_dec_T (tau self) 0); [contradiction|].
    rewrite !bind_lift_Ok.
    rewrite (broadcast_same Rplus (vneg hLt)), bind_lift_Ok
      by (unfold vneg, vscale; rewrite !length_map; congruence).
    rewrite broadcast_same, bind_lift_Ok
      by (unfold vneg, vscale; rewrite length_map, zip_with_length;
          rewrite !length_map; congruence).
    unfold setrow.
    rewrite (proj2 (nth_error_None (hL a) (S t)))
      by (destruct HhL; lia).
    reflexivity.
  - unfold getitem. rewrite HLt. reflexivity.
Qed.

(** ** The initializers *)

Lemma exp_nonpos_le_1 (x : R) : x <= 0 -> 0 < exp x <= 1.
Proof.
  intros Hx. split; [apply exp_pos|].
  destruct (Req_dec x 0) as [->|Hne].
  - rewrite exp_0. lra.
  - rewrite <- exp_0. left. apply exp_increasing. lra.
Qed.

(** X13.  [centered_voltage] draws nothing: for [N >= 0] it returns, with
    the generator state unchanged, [N] values in [(0, 1]]; for [N >= 2]
    value [i] is the bump [exp(-0.5 * ((i/(N-1) - 0.5)/0.05)^2)], the same
    for neuron [i] and neuron [N - 1 - i]; for [N = 1] the single value is
    [exp(-50)]; for [N < 0] it raises [ValueError]. *)
Theorem centered_voltage_profile (self : sim) (k : rng) :
  ((N self < 0)%Z -> centered_voltage self k = Raise ValueError) /\
  ((0 <= N self)%Z ->
   exists v,
     centered_voltage self k = Ok (v, k) /\
     length v = Z.to_nat (N self) /\
     (forall i, (i < Z.to_nat (N self))%nat -> 0 < nth i v 0 <= 1) /\
     (N self = 1%Z -> v = [exp (-50)]) /\
     ((2 <= N self)%Z ->
      forall i, (i < Z.to_nat (N self))%nat ->
        nth i v 0 =
          exp (-0.5 * ((INR i / IZR (N self - 1) - 0.5) / 0.05) ^ 2) /\
        nth (Z.to_nat (N self) - 1 - i) v 0 = nth i v 0)).
Proof.
  split.
  - intros HN. rewrite centered_voltage_pure. unfold np_linspace.
    destruct (Z.ltb_spec (N self) 0); [reflexivity|lia].
  - intros HN. rewrite centered_voltage_pure.
    destruct (np_linspace 0 1 (N self)) as [u|e] eqn:Hu;
      [|destruct (np_linspace_total 0 1 (N self) HN); congruence].
    pose proof (np_linspace_length _ _ _ _ Hu) as Hlen.
    eexists. split; [reflexivity|]. rewrite length_map.
    split; [exact Hlen|]. split; [|split].
    + intros i Hi. rewrite map_nth_in by congruence.
      apply exp_nonpos_le_1.
      pose proof (pow2_ge_0 ((nth i u 0 - 0.5) / 0.05)). lra.
    + intros H1. unfold np_linspace in Hu. rewrite H1 in Hu. simpl in Hu.
      injection Hu as <-. simpl. apply f_equal2; [|reflexivity].
      apply f_equal. lra.
    + intros H2 i Hi.
      assert (Hcast : IZR (N self - 1) <> 0) by (apply not_0_IZR; lia).
      assert (Hi' : INR (Z.to_nat (N self) - 1 - i)
                    = IZR (N self - 1) - INR i).
      { rewrite minus_INR by lia. f_equal.
        rewrite INR_IZR_INZ. f_equal. lia. }
      rewrite !map_nth_in by (rewrite Hlen; lia).
      rewrite (np_linspace_nth _ _ _ _ i H2 Hu Hi).
      rewrite (np_linspace_nth _ _ _ _ _ H2 Hu) by lia.
      rewrite Hi'.
      split; apply f_equal; replace 0.5 with (/ 2) by lra;
        replace 0.05 with (/ 20) by lra; field; assumption.
Qed.

(** X14.  [uniform_voltage] returns [N] draws of the generator for
    [N >= 0], the first being the draw at the incoming state, and raises
    [ValueError] for [N < 0]. *)
Theorem uniform_voltage_draws (self : sim) (k : rng) :
  ((N self < 0)%Z -> uniform_voltage self k = Raise ValueError) /\
  ((0 <= N self)%Z ->
   exists v k',
     uniform_voltage self k = Ok (v, k') /\
     length v = Z.to_nat (N self) /\
     ((0 < N self)%Z -> nth 0 v 0 = fst (uniform01 k)) /\
     (N self = 0%Z -> k' = k)).
Proof.
  unfold uniform_voltage, np_random_uniform. split; intros HN.
  - destruct (Z.ltb_spec (N self) 0); [reflexivity|lia].
  - destruct (Z.ltb_spec (N self) 0); [lia|].
    pose proof (uniform_draws_length (Z.to_nat (N self)) k) as Hl.
    destruct (uniform_draws (Z.to_nat (N self)) k) as [v k'] eqn:Hd.
    simpl in Hl. exists v, k'.
    split; [reflexivity|]. split; [exact Hl|]. split.
    + intros Hpos.
      destruct (Z.to_nat (N self)) as [|m] eqn:Hm; [lia|].
      simpl in Hd. destruct (uniform01 k) as [u ku].
      destruct (uniform_draws m ku) as [us k2].
      injection Hd as <- _. reflexivity.
    + intros H0. rewrite H0 in Hd. simpl in Hd. now injection Hd as _ <-.
Qed.

(** ** The head population at construction *)

Lemma rmap_length {A B} (h : A -> result B) (l : list A) (l' : list B) :
  rmap h l = Ok l' -> length l' = length l.
Proof.
  revert l'; induction l as [|x l IH]; intros l'; simpl.
  - intros H; now injection H as <-.
  - destruct (h x) as [b|e]; [|discriminate]. cbn [rbind].
    destruct (rmap h l) as [bs|e]; [|discriminate]. cbn [rbind].
    intros H; injection H as <-. simpl. now rewrite (IH bs eq_refl).
Qed.

Lemma rmap_raises {A B} (h : A -> result B) (l : list A) (x : A) (e : exn) :
  In x l -> h x = Raise e ->
  (forall y e', h y = Raise e' -> e' = e) ->
  rmap h l = Raise e.
Proof.
  intros Hin Hx Hall. induction l as [|y l IH]; [contradiction|].
  simpl. destruct (h y) as [b|e'] eqn:Hy.
  - cbn [rbind]. destruct Hin as [->|Hin]; [congruence|].
    now rewrite (IH Hin).
  - cbn [rbind]. now rewrite (Hall y e' Hy).
Qed.

(** X15.  [__init__] with a head population raises [ValueError] when some
    row of its spike array cannot be broadcast against its positions
    (different lengths, neither of them [1]); when it returns, [I_head] has
    one entry per row of the spike array and the parameters are stored as
    given. *)
Theorem init_head_rows (N0 : Z)
    (dt tau0 T0 R0 r0 alpha0 beta0 J0 theta0 I00 : R) (I_ext0 : bool)
    (Jh : R) (hp : population) (x : bool) :
  (forall row,
     In row (pop_s hp) -> length row <> length (pop_x hp) ->
     length row <> 1%nat -> length (pop_x hp) <> 1%nat ->
     init N0 dt tau0 T0 R0 r0 alpha0 beta0 J0 theta0 I00 I_ext0 Jh
       (Some hp) x = Raise ValueError) /\
  (forall self,
     init N0 dt tau0 T0 R0 r0 alpha0 beta0 J0 theta0 I00 I_ext0 Jh
       (Some hp) x = Ok self ->
     length (I_head self) = length (pop_s hp) /\
     w_head self = Some (map (if x then cos else sin) (pop_x hp)) /\
     N self = N0 /\ delta_t self = dt /\ tau self = tau0 /\ T self = T0 /\
     J self = J0 /\ theta self = theta0 /\ I0 self = I00 /\
     I_ext self = I_ext0).
Proof.
  split.
  - intros row Hin Hlen Hrow Hpos.
    assert (Hdrive : forall w : R -> R,
              head_drive Jh dt (pop_s hp) (map w (pop_x hp))
              = Raise ValueError).
    { intros w. unfold head_drive.
      rewrite (rmap_raises _ (pop_s hp) row ValueError Hin); [reflexivity| |].
      - apply broadcast_mismatch;
          unfold vdiv_scalar; rewrite ?length_map; assumption.
      - intros y e'. apply broadcast_error. }
    unfold init. destruct x; now rewrite Hdrive.
  - intros self Hinit. unfold init in Hinit.
    destruct x; unfold head_drive in Hinit;
      destruct (rmap _ (pop_s hp)) as [prod|e] eqn:Hprod;
      try discriminate; cbn [rbind] in Hinit;
      injection Hinit as <-; cbn [I_head w_head N delta_t tau T J theta I0
                                    I_ext];
      (split; [unfold vscale; rewrite !length_map;
               exact (rmap_length _ _ _ Hprod)|]);
      repeat split.
Qed.

(** ** A duration shorter than the step *)

Lemma py_int_small (x : R) : -1 < x < 1 -> py_int x = 0%Z.
Proof.
  intros [Hlo Hhi]. unfold py_int. destruct (Rle_dec 0 x) as [Hx|Hx].
  - symmetry. apply Int_part_spec. simpl. lra.
  - destruct (Req_dec x 0) as [->|Hne]; [lra|].
    rewrite <- (Int_part_spec (- x) 0); [reflexivity|]. simpl. lra.
Qed.

Lemma prologue_no_step (self : sim) (f : callable) (k0 : rng) :
  num_steps self = Ok 0%Z -> (0 <= N self)%Z ->
  probabilities_ok self -> initializer_ok self f ->
  prologue self f k0 = Raise IndexError.
Proof.
  intros Hns HN Hp Hf.
  assert (Hinit : initialize_simulation self = Ok ([], [], [])).
  { unfold initialize_simulation. rewrite Hns. cbn [rbind].
    rewrite np_zeros_total by lia. reflexivity. }
  destruct (np_linspace_total 0 (2 * PI) (N self) HN) as [x Hx].
  destruct (Hf k0) as (h0 & k & Hcall & _).
  destruct (first_step_update_total self f k0 k h0 Hp Hcall)
    as (s0 & k' & Hfs & _).
  unfold prologue, initialize_positions.
  rewrite Hinit, Hx, !bind_lift_Ok. cbv beta iota.
  rewrite ?bind_lift_Ok. rewrite (bind_Ok _ _ _ _ _ Hfs). reflexivity.
Qed.

(** X16.  [int] truncates toward zero: a duration with [|T| < delta_t]
    gives zero steps, and on an otherwise working configuration the run
    then raises [IndexError] at the first row assignment, before its
    loop. *)
Theorem duration_shorter_than_step (self : sim) (f : callable) (k0 : rng) :
  0 < delta_t self -> - delta_t self < T self < delta_t self ->
  num_steps self = Ok 0%Z /\
  ((0 <= N self)%Z -> probabilities_ok self -> initializer_ok self f ->
   prologue self f k0 = Raise IndexError /\
   run self f k0 = Raise IndexError /\
   simulation self (Some f) k0 = Raise IndexError).
Proof.
  intros Hdt HT.
  assert (Hns : num_steps self = Ok 0%Z).
  { unfold num_steps, py_fdiv.
    destruct (Req_dec_T (delta_t self) 0); [lra|]. cbn [rbind].
    rewrite py_int_small; [reflexivity|].
    now apply fdiv_below_one. }
  split; [exact Hns|]. intros HN Hp Hf.
  pose proof (prologue_no_step self f k0 Hns HN Hp Hf) as Hpro.
  split; [exact Hpro|]. now apply prologue_Raise.
Qed.

(** ** Parameters that a run does not read *)

Lemma for_loop_ext (self self' : sim) (ts : list nat) :
  (forall a t k, loop_body self' a t k = loop_body self a t k) ->
  forall a k, for_loop self' ts a k = for_loop self ts a k.
Proof.
  intros Hbody. induction ts as [|t ts IH]; intros a k; simpl.
  - reflexivity.
  - unfold bind. rewrite Hbody.
    destruct (loop_body self a t k) as [[a' k']|e]; [apply IH|reflexivity].
Qed.

(** X17.  A disabled pulse leaves no trace: with [I_ext] false the run does
    not depend on [I0].  And [J_head] is read by [__init__] only: changing
    it on the object afterwards changes nothing of a run, with or without a
    head population. *)
Theorem unused_amplitudes (self : sim) (f : callable) (k0 : rng) (v : R) :
  (I_ext self = false -> run (with_I0 self v) f k0 = run self f k0) /\
  run (with_J_head self v) f k0 = run self f k0.
Proof.
  split.
  - intros Hext. rewrite !run_prologue.
    change (prologue (with_I0 self v) f) with (prologue self f).
    apply bind_ext. intros a k. apply for_loop_ext.
    intros b t kb. unfold loop_body, step_input.
    change (I_ext (with_I0 self v)) with (I_ext self). rewrite Hext.
    reflexivity.
  - rewrite !run_prologue.
    change (prologue (with_J_head self v) f) with (prologue self f).
    apply bind_ext. intros a k. apply for_loop_ext.
    intros b t kb. reflexivity.
Qed.

(** ** Runs of different durations *)

Lemma advance_transfer (self : sim) (t : nat) (h r s h1 r1 s1 : matrix)
    (ht I : vec) (k k1 : rng) :
  advance self t h r s ht I k = Ok (h1, r1, s1, k1) ->
  exists snew,
    h1 = replace_nth h (S t) (euler self ht I) /\
    r1 = replace_nth r (S t) (rate self (euler self ht I)) /\
    s1 = replace_nth s (S t) snew /\
    forall h' r' s',
      advance self t h' r' s' ht I k =
      Ok (replace_nth h' (S t) (euler self ht I),
          replace_nth r' (S t) (rate self (euler self ht I)),
          replace_nth s' (S t) snew, k1).
Proof.
  unfold advance.
  destruct (Req_dec_T (tau self) 0); [discriminate|].
  destruct (forallb valid_probability _); [|discriminate].
  destruct (bernoulli_trials _ k) as [snew k'].
  intros H; injection H as <- <- <- <-.
  exists snew. repeat split; reflexivity.
Qed.

Lemma rows_agree_replace_both (m m' : matrix) (t : nat) (v : vec) :
  rows_agree m m' t -> (S t < length m)%nat -> (S t < length m')%nat ->
  rows_agree (replace_nth m (S t) v) (replace_nth m' (S t) v) (S t).
Proof.
  intros Hag Hm Hm' i Hi. destruct (Nat.eq_dec i (S t)) as [->|Hne].
  - now rewrite !replace_nth_same.
  - rewrite !replace_nth_other by lia. apply Hag. lia.
Qed.

Lemma loop_body_transfer (self : sim) (a a' a1 : arrays) (t k k' n : nat)
    (k0 k1 : rng) :
  well_shaped a k n -> well_shaped a' k' n ->
  (S t < k)%nat -> (S t < k')%nat -> agree a a' t ->
  loop_body self a t k0 = Ok (a1, k1) ->
  exists a1',
    loop_body self a' t k0 = Ok (a1', k1) /\
    well_shaped a1' k' n /\ agree a1 a1' (S t).
Proof.
  intros Ha Ha' Ht Ht' Hag Hbody.
  assert (Hgoal : exists a1',
            loop_body self a' t k0 = Ok (a1', k1) /\ agree a1 a1' (S t)).
  { unfold loop_body in *.
    rewrite (step_input_agree self a a' t Hag).
    destruct (step_input self a t) as [[IL IR]|e] eqn:Hin;
      [|discriminate].
    rewrite bind_lift_Ok in *.
    destruct (step_input_lengths self a t k n IL IR Ha Hin) as [HIL HIR].
    pose proof Ha as (HhL & HrL & HsL & HhR & HrR & HsR & _).
    pose proof Ha' as (HhL' & HrL' & HsL' & HhR' & HrR' & HsR' & _).
    pose proof Hag as (G1 & G2 & G3 & G4 & G5 & G6 & G7 & G8).
    destruct (shape_has_row _ _ _ t HhL) as [hLt HLt]; [lia|].
    destruct (shape_has_row _ _ _ t HhR) as [hRt HRt]; [lia|].
    assert (HLt' : nth_error (hL a') t = Some hLt)
      by (rewrite G1 by lia; assumption).
    assert (HRt' : nth_error (hR a') t = Some hRt)
      by (rewrite G4 by lia; assumption).
    rewrite (update_shaped self a t k n IL IR hLt hRt k0) in Hbody
      by assumption.
    rewrite (update_shaped self a' t k' n IL IR hLt hRt k0) by assumption.
    destruct (advance self t (hL a) (rL a) (sL a) hLt IL k0)
      as [[[[h1 r1] s1] km]|e] eqn:HadvL; [|discriminate].
    destruct (advance_transfer _ _ _ _ _ _ _ _ _ _ _ _ HadvL)
      as (sLn & -> & -> & -> & HL').
    rewrite HL'.
    destruct (advance self t (hR a) (rR a) (sR a) hRt IR km)
      as [[[[h2 r2] s2] kn]|e] eqn:HadvR; [|discriminate].
    destruct (advance_transfer _ _ _ _ _ _ _ _ _ _ _ _ HadvR)
      as (sRn & -> & -> & -> & HR').
    rewrite HR'. injection Hbody as <- <-.
    eexists. split; [reflexivity|].
    refine (conj _ (conj _ (conj _ (conj _ (conj _ (conj _ (conj _ _)))))));
      cbn [hL rL sL hR rR sR xL xR]; try assumption;
      apply rows_agree_replace_both; try assumption;
      first [ destruct HhL, HrL, HsL, HhR, HrR, HsR; lia
            | destruct HhL', HrL', HsL', HhR', HrR', HsR'; lia ]. }
  destruct Hgoal as (a1' & Hbody' & Hag').
  exists a1'. split; [exact Hbody'|]. split; [|exact Hag'].
  now destruct (loop_body_inv self a' a1' t k' n k0 k1 Ha' Ht' Hbody').
Qed.

Lemma for_loop_transfer (self : sim) (k k' n m : nat) :
  forall (t0 : nat) (a a' af : arrays) (k0 kf : rng),
    well_shaped a k n -> well_shaped a' k' n ->
    (t0 + m < k)%nat -> (t0 + m < k')%nat -> agree a a' t0 ->
    for_loop self (seq t0 m) a k0 = Ok (af, kf) ->
    exists af',
      for_loop self (seq t0 m) a' k0 = Ok (af', kf) /\
      well_shaped af' k' n /\ agree af af' (t0 + m).
Proof.
  induction m as [|m IH]; intros t0 a a' af k0 kf Ha Ha' Hk Hk' Hag; simpl.
  - unfold ret. intros H; injection H as <- <-.
    exists a'. rewrite Nat.add_0_r. auto.
  - unfold bind at 1.
    destruct (loop_body self a t0 k0) as [[a1 km]|e] eqn:Hbody;
      [|discriminate].
    intros Hloop.
    destruct (loop_body_inv self a a1 t0 k n k0 km Ha ltac:(lia) Hbody)
      as (Ha1 & _ & _).
    destruct (loop_body_transfer self a a' a1 t0 k k' n k0 km Ha Ha'
                ltac:(lia) ltac:(lia) Hag Hbody)
      as (a1' & Hbody' & Ha1' & Hag1).
    rewrite (bind_Ok _ _ _ _ _ Hbody').
    destruct (IH (S t0) a1 a1' af km kf Ha1 Ha1' ltac:(lia) ltac:(lia)
                Hag1 Hloop) as (af' & Hloop' & Haf' & Hagf).
    exists af'. split; [exact Hloop'|]. split; [exact Haf'|].
    now replace (t0 + S m)%nat with (S t0 + m)%nat by lia.
Qed.

Lemma prologue_transfer (self : sim) (v : R) (f : callable) (k0 k1 k1' : rng)
    (a a' : arrays) :
  prologue self f k0 = Ok (a, k1) ->
  prologue (with_T self v) f k0 = Ok (a', k1') ->
  k1' = k1 /\ agree a a' 0.
Proof.
  intros Hpro Hpro'.
  destruct (prologue_rows self f k0 k1 a Hpro)
    as (hl & sl & hr & sr & ka & kb & kc & x & H1 & H2 & H3 & H4 & H5 & H6
        & H7 & H8 & H9 & H10 & H11 & H12 & H13).
  destruct (prologue_rows _ f k0 k1' a' Hpro')
    as (hl' & sl' & hr' & sr' & ka' & kb' & kc' & x' & G1 & G2 & G3 & G4
        & G5 & G6 & G7 & G8 & G9 & G10 & G11 & G12 & G13).
  change (rate (with_T self v)) with (rate self) in *.
  change (delta_t (with_T self v)) with (delta_t self) in *.
  change (N (with_T self v)) with (N self) in *.
  change (initialize_positions (with_T self v))
    with (initialize_positions self) in G5.
  rewrite H1 in G1. injection G1 as <- <-.
  rewrite H2 in G2. injection G2 as <- <-.
  rewrite H3 in G3. injection G3 as <- <-.
  rewrite H4 in G4. injection G4 as <- <-.
  rewrite H5 in G5. injection G5 as <-.
  split; [reflexivity|].
  refine (conj _ (conj _ (conj _ (conj _ (conj _ (conj _ (conj _ _)))))));
    try congruence;
    intros i Hi; replace i with 0%nat by lia; congruence.
Qed.

(** X18.  A longer run extends a shorter one: two runs from the same
    generator state on objects that differ in [T] only agree, row by row,
    on all the rows of the shorter one. *)
Theorem longer_run_extends_shorter (self : sim) (v : R) (f : callable)
    (k0 k1 k1' : rng) (a a' : arrays) :
  run self f k0 = Ok (a, k1) ->
  run (with_T self v) f k0 = Ok (a', k1') ->
  (length (hL a) <= length (hL a'))%nat ->
  forall j, (j < length (hL a))%nat ->
    nth j (hL a') [] = nth j (hL a) [] /\
    nth j (rL a') [] = nth j (rL a) [] /\
    nth j (sL a') [] = nth j (sL a) [] /\
    nth j (hR a') [] = nth j (hR a) [] /\
    nth j (rR a') [] = nth j (rR a) [] /\
    nth j (sR a') [] = nth j (sR a) [].
Proof.
  intros Hrun Hrun' Hle j Hj.
  assert (Hag : agree a a' (length (hL a) - 1)).
  { rewrite run_prologue in Hrun, Hrun'.
    bind_inv Hrun a0. bind_inv Hrun' b0.
    destruct (prologue_inv self f k0 k a0 Ha0)
      as (ns & Hns & Hpos & HN & Hsh).
    destruct (prologue_inv _ f k0 k2 b0 Hb0)
      as (ns' & Hns' & Hpos' & _ & Hsh').
    change (N (with_T self v)) with (N self) in Hsh'.
    destruct (prologue_transfer self v f k0 k k2 a0 b0 Ha0 Hb0)
      as [-> Hag0].
    rewrite (for_loop_ext self (with_T self v)) in Hrun'
      by (intros; reflexivity).
    replace (length (hR a0)) with (Z.to_nat ns) in Hrun
      by (symmetry; apply Hsh).
    replace (length (hR b0)) with (Z.to_nat ns') in Hrun'
      by (symmetry; apply Hsh').
    destruct (for_loop_inv self (Z.to_nat ns) (Z.to_nat (N self))
                (Z.to_nat ns - 1) 0 a0 a k k1 Hsh ltac:(lia) Hrun)
      as (Ha & _ & _).
    destruct (for_loop_inv self (Z.to_nat ns') (Z.to_nat (N self))
                (Z.to_nat ns' - 1) 0 b0 a' k k1' Hsh' ltac:(lia) Hrun')
      as (Ha' & _ & _).
    assert (Hk : length (hL a) = Z.to_nat ns) by apply Ha.
    assert (Hk' : length (hL a') = Z.to_nat ns') by apply Ha'.
    rewrite Hk, Hk' in Hle. rewrite Hk.
    replace (Z.to_nat ns' - 1)%nat
      with ((Z.to_nat ns - 1) + (Z.to_nat ns' - Z.to_nat ns))%nat
      in Hrun' by lia.
    rewrite seq_app, for_loop_app in Hrun'. bind_inv Hrun' bm.
    destruct (for_loop_transfer self (Z.to_nat ns) (Z.to_nat ns')
                (Z.to_nat (N self)) (Z.to_nat ns - 1) 0 a0 b0 a k k1
                Hsh Hsh' ltac:(lia) ltac:(lia) Hag0 Hrun)
      as (af' & Hloop' & Haf' & Hagf).
    rewrite Hloop' in Hbm. injection Hbm as <- <-.
    simpl in Hrun', Hagf.
    destruct (Nat.eq_dec (Z.to_nat ns' - Z.to_nat ns) 0) as [Hz|Hnz].
    - rewrite Hz in Hrun'. simpl in Hrun'. unfold ret in Hrun'.
      injection Hrun' as <- <-. exact Hagf.
    - destruct (for_loop_inv self (Z.to_nat ns') (Z.to_nat (N self))
                  (Z.to_nat ns' - Z.to_nat ns) (Z.to_nat ns - 1) af' a'
                  k1 k1' Haf' ltac:(lia) Hrun') as (_ & Hag2 & _).
      eapply agree_trans; [|exact Hagf|exact Hag2]. lia. }
  destruct Hag as (G1 & G2 & G3 & G4 & G5 & G6 & _).
  unfold rows_agree in *.
  assert (Hnth : forall m m' : matrix,
            nth_error m' j = nth_error m j -> nth j m' [] = nth j m []).
  { intros m m' Hnm.
    destruct (nth_error m j) as [row|] eqn:Hrow.
    - now rewrite (nth_error_nth _ _ [] Hnm), (nth_error_nth _ _ [] Hrow).
    - rewrite !nth_overflow; [reflexivity| |];
        apply nth_error_None; assumption. }
  repeat split; apply Hnth;
    [apply G1|apply G2|apply G3|apply G4|apply G5|apply G6]; lia.
Qed.

End Stepping.

(** ** The sample configurations *)

Lemma py_int_IZR (z : Z) : py_int (IZR z) = z.
Proof.
  unfold py_int. destruct (Rle_dec 0 (IZR z)) as [Hz|Hz].
  - symmetry. apply Int_part_spec. lra.
  - rewrite <- opp_IZR.
    rewrite <- (Int_part_spec (IZR (- z)) (- z)) by lra. lia.
Qed.

Lemma num_steps_exact (self : sim) (z : Z) :
  delta_t self <> 0 -> T self = IZR z * delta_t self ->
  num_steps (E := sample_world) self = Ok z.
Proof.
  intros Hdt HT. unfold num_steps, py_fdiv. cbn [fdiv sample_world].
  destruct (Req_dec_T (delta_t self) 0); [contradiction|]. simpl.
  replace (T self / delta_t self) with (IZR z) by (rewrite HT; now field).
  now rewrite py_int_IZR.
Qed.

Lemma valid_probability_true (p : R) :
  0 <= p <= 1 -> valid_probability p = true.
Proof.
  intros [H0 H1]. unfold valid_probability.
  destruct (Rle_dec 0 p); [|contradiction].
  destruct (Rle_dec p 1); [reflexivity|contradiction].
Qed.

Lemma sample_world_probabilities (self : sim) :
  0 <= r_0 self * / 2 * delta_t self <= 1 -> probabilities_ok self.
Proof. intros Hp h. simpl. now apply valid_probability_true. Qed.

Lemma sample_num_steps : num_steps sample = Ok 3%Z.
Proof. apply num_steps_exact; simpl; lra. Qed.

Lemma sample_runs :
  exists a k1,
    run (E := sample_world) sample (Method_centered_voltage sample) 0%nat
    = Ok (a, k1).
Proof.
  apply (run_total (E := sample_world) sample _ 3 0%nat sample_num_steps);
    try (simpl; lia); try (simpl; lra).
  - apply sample_world_probabilities. simpl. lra.
  - apply centered_voltage_ok. simpl. lia.
  - intros t _. unfold head_at. simpl. eauto.
Qed.

Lemma simulation_of_run (self : sim) (f : callable) (k0 k1 : nat)
    (a : arrays) :
  run (E := sample_world) self f k0 = Ok (a, k1) ->
  simulation (E := sample_world) self (Some f) k0
  = Ok (hL a, sL a, hR a, sR a, k1).
Proof.
  intros Hrun. unfold simulation.
  rewrite (bind_Ok (E := sample_world) _ _ _ _ _ Hrun). reflexivity.
Qed.

Lemma run_rows (self : sim) (f : callable) (k0 k1 : nat) (a : arrays)
    (ns : Z) :
  num_steps self = Ok ns ->
  run (E := sample_world) self f k0 = Ok (a, k1) ->
  length (hL a) = Z.to_nat ns.
Proof.
  intros Hns Hrun.
  destruct (run_trace (E := sample_world) self f k0 k1 a Hrun)
    as (ns' & Hns' & _ & _ & Ha & _).
  assert (ns' = ns) by congruence. subst ns'. apply Ha.
Qed.

Lemma pulsed_runs :
  exists a k1,
    run (E := sample_world) pulsed (Method_centered_voltage pulsed) 0%nat
    = Ok (a, k1).
Proof.
  apply (run_total (E := sample_world) pulsed _ 3 0%nat);
    try (simpl; lia); try (simpl; lra).
  - apply num_steps_exact; simpl; lra.
  - apply sample_world_probabilities. simpl. lra.
  - apply centered_voltage_ok. simpl. lia.
  - intros t _. unfold head_at. simpl. eauto.
Qed.

Lemma uncoupled_runs :
  exists a k1,
    run (E := sample_world) uncoupled (Method_uniform_voltage uncoupled) 0%nat
    = Ok (a, k1).
Proof.
  apply (run_total (E := sample_world) uncoupled _ 3 0%nat);
    try (simpl; lia); try (simpl; lra).
  - apply num_steps_exact; simpl; lra.
  - apply sample_world_probabilities. simpl. lra.
  - apply uniform_voltage_ok. simpl. lia.
  - intros t _. unfold head_at. simpl. eauto.
Qed.

Lemma headed_init (T0 : R) :
  init 2 1 10 T0 1 1 1 0 1 0 0 false 1 (Some head) true = Ok (headed T0).
Proof. reflexivity. Qed.

Lemma head_scaled_init (x : bool) :
  init 2 1 10 2 1 1 1 0 1 0 0 false 3 (Some head) x = Ok (head_scaled x).
Proof. destruct x; reflexivity. Qed.

Lemma headed_num_steps (z : Z) : num_steps (headed (IZR z)) = Ok z.
Proof. apply num_steps_exact; simpl; lra. Qed.


Lemma basic_run (self : sim) (f : callable) (ns : Z) :
  num_steps self = Ok ns -> (1 <= ns)%Z -> (0 <= N self)%Z ->
  tau self <> 0 -> 0 <= r_0 self * / 2 * delta_t self <= 1 ->
  initializer_ok (E := sample_world) self f ->
  (forall w, w_head self = Some w ->
     (Z.to_nat ns - 1 <= length (I_head self))%nat) ->
  exists r k1, simulation (E := sample_world) self (Some f) 0%nat = Ok (r, k1).
Proof.
  intros Hns Hpos HN Htau Hp Hf Hhead.
  destruct (run_total (E := sample_world) self f ns 0%nat Hns Hpos HN Htau)
    as (a & k1 & Hrun); auto.
  - now apply sample_world_probabilities.
  - intros t Ht. now apply (head_long_enough self (Z.to_nat ns) t).
  - rewrite (simulation_of_run _ _ _ _ _ Hrun). eauto.
Qed.

(** ** Instances of the theorems *)

Lemma update_is_explicit_euler_witness :
  exists a k1,
    run (E := sample_world) sample (Method_centered_voltage sample) 0%nat
    = Ok (a, k1) /\
    exists IL IR,
      step_input sample a 0 = Ok (IL, IR) /\
      nth 0 (nth 1 (hL a) []) 0 =
        nth 0 (nth 0 (hL a) []) 0
        + 1 / 10 * (- nth 0 (nth 0 (hL a) []) 0 + 1 * nth 0 IL 0).
Proof.
  destruct sample_runs as (a & k1 & Hrun). exists a, k1.
  split; [exact Hrun|].
  pose proof (run_rows _ _ _ _ _ _ sample_num_steps Hrun) as Hlen.
  destruct (update_is_explicit_euler (E := sample_world) sample _ _ _ _ Hrun)
    as (_ & Hstep & _).
  destruct (Hstep 0%nat ltac:(rewrite Hlen; simpl; lia))
    as (IL & IR & Hin & Hrows & _).
  exists IL, IR. split; [exact Hin|].
  apply (Hrows 0%nat). simpl. lia.
Defined.


Lemma pulse_window_witness :
  I_ext pulsed = true /\
  external_input pulsed (INR 299 * delta_t pulsed) = 0 /\
  external_input pulsed (INR 300 * delta_t pulsed) = 5 /\
  external_input pulsed (INR 599 * delta_t pulsed) = 5 /\
  external_input pulsed (INR 600 * delta_t pulsed) = 0.
Proof.
  split; [reflexivity|].
  destruct (pulse_window (E := sample_world) pulsed eq_refl) as (_ & _ & H).
  destruct (H eq_refl eq_refl) as (H299 & Hin & H600).
  split; [exact H299|]. split; [apply Hin; lia|].
  split; [apply Hin; lia|exact H600].
Defined.

Lemma head_drive_precomputed_witness :
  init 2 1 10 2 1 1 1 0 1 0 0 false 3 (Some head) false
  = Ok (head_scaled false) /\
  w_head (head_scaled false) = Some (map sin [0; 1]) /\
  nth_error (I_head (head_scaled false)) 0 =
    Some (3 * weighted_mean sin [0; 1] (vdiv_scalar [1; 0] 1)).
Proof.
  split; [apply (head_scaled_init false)|].
  destruct (head_drive_precomputed (E := sample_world)
              2 1 10 2 1 1 1 0 1 0 0 false 3 head false (head_scaled false)
              (head_scaled_init false))
    as (Hw & _ & Hrow & _).
  { repeat constructor. }
  split; [exact Hw|]. apply (Hrow 0%nat [1; 0]). reflexivity.
Defined.

(** C4 fails as stated: with [J_head = 3] the stored drive is three times
    the weighted average of the rates, [3/2] against [1/2]. *)
Lemma head_drive_is_scaled :
  init 2 1 10 2 1 1 1 0 1 0 0 false 3 (Some head) true
  = Ok (head_scaled true) /\
  nth_error (I_head (head_scaled true)) 0 = Some (3 / 2) /\
  weighted_mean cos (pop_x head) (vdiv_scalar [1; 0] 1) = 1 / 2 /\
  3 / 2 <> 1 / 2.
Proof.
  split; [apply (head_scaled_init true)|]. split; [|split].
  - simpl. f_equal. unfold np_mean, vsum. simpl. rewrite cos_0. field.
  - unfold weighted_mean, vsum. simpl. rewrite cos_0. field.
  - lra.
Qed.

Lemma uncoupled_leaky_integrator_witness :
  exists a k1,
    run (E := sample_world) uncoupled (Method_uniform_voltage uncoupled) 0%nat
    = Ok (a, k1) /\
    nth 0 (nth 1 (hL a) []) 0 = nth 0 (nth 0 (hL a) []) 0 * (1 - 1 / 10).
Proof.
  destruct uncoupled_runs as (a & k1 & Hrun). exists a, k1.
  split; [exact Hrun|].
  assert (Hns : num_steps uncoupled = Ok 3%Z)
    by (apply num_steps_exact; simpl; lra).
  pose proof (run_rows _ _ _ _ _ _ Hns Hrun) as Hlen.
  apply (uncoupled_leaky_integrator (E := sample_world) uncoupled _ _ _ _
           eq_refl eq_refl eq_refl Hrun 0%nat 0%nat).
  - rewrite Hlen. simpl. lia.
  - simpl. lia.
Defined.


Lemma ring_positions_witness :
  exists x,
    initialize_positions sample = Ok x /\
    length x = 2%nat /\ nth 0 x 0 = 0 /\ last x 0 = 2 * PI.
Proof.
  destruct (ring_positions sample) as (_ & _ & Hring).
  destruct (Hring ltac:(simpl; lia))
    as (x & Hx & Hlen & _ & _ & _ & Hfirst & Hlast).
  exists x. repeat split; assumption.
Defined.

(** C7 fails for one neuron: the single position is [0], not [2pi]. *)
Lemma single_position_is_zero :
  (0 < N one_neuron)%Z /\
  exists v,
    initialize_positions one_neuron = Ok [v] /\ v = 0 /\
    last [v] 0 <> 2 * PI.
Proof.
  split; [reflexivity|].
  exists (0 * (2 * PI - 0) + 0). split; [reflexivity|].
  split; [ring|]. simpl. pose proof PI_RGT_0. lra.
Qed.



Lemma short_head_drive_witness :
  length (I_head (headed 5)) = 1%nat /\
  num_steps (headed 5) = Ok 5%Z /\
  run (E := sample_world) (headed 5) (Method_centered_voltage (headed 5))
    0%nat = Raise IndexError.
Proof.
  split; [reflexivity|]. split; [apply (headed_num_steps 5)|].
  destruct (short_head_drive (E := sample_world) (headed 5)
              (Method_centered_voltage (headed 5)) 5 (map cos [0; 1]) 0%nat)
    as [Hshort _]; try (simpl; lia); try (simpl; lra).
  - apply (headed_num_steps 5).
  - apply sample_world_probabilities. simpl. lra.
  - apply centered_voltage_ok. simpl. lia.
  - reflexivity.
  - destruct (Hshort ltac:(simpl; lia)) as (a & k1 & a' & k2 & _ & _ & _ & H).
    exact H.
Defined.

(** C9 fails: a head drive of one entry under a run of two steps raises
    nothing, neither at initialization nor later. *)
Lemma short_head_drive_unnoticed :
  init 2 1 10 2 1 1 1 0 1 0 0 false 1 (Some head) true = Ok (headed 2) /\
  num_steps (headed 2) = Ok 2%Z /\
  (length (I_head (headed 2)) < 2)%nat /\
  exists r k1,
    simulation (E := sample_world) (headed 2)
      (Some (Method_centered_voltage (headed 2))) 0%nat = Ok (r, k1).
Proof.
  split; [apply headed_init|]. split; [apply (headed_num_steps 2)|].
  split; [simpl; lia|].
  apply (basic_run (headed 2) _ 2); try (simpl; lia); try (simpl; lra).
  - apply (headed_num_steps 2).
  - apply centered_voltage_ok. simpl. lia.
Qed.

Lemma default_initializer_raises_witness :
  simulation (E := sample_world) sample None 0%nat = Raise TypeError /\
  (exists r,
     simulation (E := sample_world) sample
       (Some (Method_uniform_voltage sample)) 0%nat = Ok r) /\
  (exists r,
     simulation (E := sample_world) sample
       (Some (Method_centered_voltage sample)) 0%nat = Ok r).
Proof.
  destruct (default_initializer_raises (E := sample_world) sample 0%nat)
    as (_ & Hdefault & Hbound).
  split; [apply (Hdefault 3%Z sample_num_steps); simpl; lia|].
  split.
  - apply (Hbound 3%Z _ (or_introl eq_refl) sample_num_steps);
      try (simpl; lia); try (simpl; lra); try reflexivity.
    apply sample_world_probabilities. simpl. lra.
  - apply (Hbound 3%Z _ (or_intror eq_refl) sample_num_steps);
      try (simpl; lia); try (simpl; lra); try reflexivity.
    apply sample_world_probabilities. simpl. lra.
Defined.

(** ** Instances of the further properties *)

Lemma sample_rows (a : arrays) (k1 : nat) :
  run (E := sample_world) sample (Method_centered_voltage sample) 0%nat
  = Ok (a, k1) ->
  length (hL a) = 3%nat.
Proof. intros Hrun. exact (run_rows _ _ _ _ _ _ sample_num_steps Hrun). Qed.

Lemma spikes_are_binary_witness :
  exists a k1,
    run (E := sample_world) sample (Method_centered_voltage sample) 0%nat
    = Ok (a, k1) /\
    binary (nth 1 (nth 2 (sL a) []) 0) /\ binary (nth 1 (nth 2 (sR a) []) 0).
Proof.
  destruct sample_runs as (a & k1 & Hrun). exists a, k1.
  split; [exact Hrun|].
  apply (spikes_are_binary (E := sample_world) sample _ _ _ _ Hrun).
  - rewrite (sample_rows a k1 Hrun). lia.
  - simpl. lia.
Defined.

Lemma rates_follow_potentials_witness :
  exists a k1,
    run (E := sample_world) sample (Method_centered_voltage sample) 0%nat
    = Ok (a, k1) /\
    0 <= nth 0 (nth 0 (rL a) []) 0 * 1 <= 1.
Proof.
  destruct sample_runs as (a & k1 & Hrun). exists a, k1.
  split; [exact Hrun|].
  destruct (rates_follow_potentials (E := sample_world) sample _ _ _ _ Hrun
              0%nat 0%nat) as (_ & _ & Hp & _).
  - rewrite (sample_rows a k1 Hrun). lia.
  - simpl. lia.
  - exact Hp.
Defined.

Lemma first_rows_from_initializer_witness :
  exists a k1 hl ka,
    run (E := sample_world) sample (Method_centered_voltage sample) 0%nat
    = Ok (a, k1) /\
    centered_voltage (E := sample_world) sample 0%nat = Ok (hl, ka) /\
    nth 0 (hL a) [] = as_row 2 hl.
Proof.
  destruct sample_runs as (a & k1 & Hrun).
  destruct (first_rows_from_initializer (E := sample_world) sample _ _ _ _
              Hrun)
    as (hl & sl & hr & ka & kb & kc & Hcall & _ & _ & Hrow & _).
  exists a, k1, hl, ka. auto.
Defined.

Lemma populations_share_positions_witness :
  exists a k1,
    run (E := sample_world) sample (Method_centered_voltage sample) 0%nat
    = Ok (a, k1) /\
    xR a = xL a /\ length (xL a) = 2%nat.
Proof.
  destruct sample_runs as (a & k1 & Hrun). exists a, k1.
  split; [exact Hrun|].
  destruct (populations_share_positions (E := sample_world) sample _ _ _ _
              Hrun) as (_ & Hx & Hl).
  auto.
Defined.

Lemma recurrent_input_is_cosine_kernel_witness :
  exists IL IR,
    two_population_recurrent_input [0; PI] [0; PI] [1; 0] [0; 1] 2 0
    = Ok (IL, IR) /\ length IL = 2%nat.
Proof.
  destruct (recurrent_input_is_cosine_kernel [0; PI] [0; PI] [1; 0] [0; 1]
              2 0 2 eq_refl eq_refl eq_refl eq_refl)
    as (IL & IR & Hrec & HL & _).
  exists IL, IR. auto.
Defined.

Lemma recurrent_input_shape_mismatch_witness :
  two_population_recurrent_input [0; 1; 2] [0; 1; 2] [1; 0] [0; 1; 1] 1 0
  = Raise ValueError.
Proof.
  apply recurrent_input_shape_mismatch. left. simpl. repeat split; lia.
Defined.

Lemma drives_cancel_in_sum_witness :
  exists a k1 IL IR,
    run (E := sample_world) pulsed (Method_centered_voltage pulsed) 0%nat
    = Ok (a, k1) /\
    step_input pulsed a 0 = Ok (IL, IR).
Proof.
  destruct pulsed_runs as (a & k1 & Hrun).
  assert (Hns : num_steps pulsed = Ok 3%Z)
    by (apply num_steps_exact; simpl; lra).
  pose proof (run_rows _ _ _ _ _ _ Hns Hrun) as Hlen.
  destruct (drives_cancel_in_sum (E := sample_world) pulsed _ _ _ _ Hrun
              0%nat ltac:(rewrite Hlen; simpl; lia))
    as (IL & IR & Hin & _).
  exists a, k1, IL, IR. auto.
Defined.

Lemma ring_endpoints_share_input_witness :
  exists a k1 IL IR,
    run (E := sample_world) sample (Method_centered_voltage sample) 0%nat
    = Ok (a, k1) /\
    step_input sample a 0 = Ok (IL, IR) /\ nth 0 IL 0 = nth 1 IL 0.
Proof.
  destruct sample_runs as (a & k1 & Hrun).
  destruct (ring_endpoints_share_input (E := sample_world) sample _ _ _ _
              ltac:(simpl; lia) Hrun 0%nat
              ltac:(rewrite (sample_rows a k1 Hrun); lia))
    as (IL & IR & Hin & HL & _).
  exists a, k1, IL, IR. auto.
Defined.

Lemma symmetric_populations_coincide_witness :
  exists a k1,
    run (E := sample_world) sample (Method_centered_voltage sample) 0%nat
    = Ok (a, k1) /\
    nth 2 (hL a) [] = nth 2 (hR a) [].
Proof.
  destruct sample_runs as (a & k1 & Hrun). exists a, k1.
  split; [exact Hrun|].
  apply (symmetric_populations_coincide (E := sample_world) sample sample
           _ _ _ eq_refl eq_refl eq_refl Hrun).
  rewrite (sample_rows a k1 Hrun). lia.
Defined.

Lemma zero_time_constant_witness :
  tau zero_tau = 0 /\
  run (E := sample_world) zero_tau (Method_centered_voltage zero_tau) 0%nat
  = Raise ZeroDivisionError.
Proof.
  split; [reflexivity|].
  destruct (zero_time_constant (E := sample_world) zero_tau
              (Method_centered_voltage zero_tau) 3 0%nat)
    as [_ Hloop].
  - apply num_steps_exact; simpl; lra.
  - simpl. lia.
  - reflexivity.
  - apply sample_world_probabilities. simpl. lra.
  - apply centered_voltage_ok. simpl. lia.
  - destruct (Hloop ltac:(lia)) as [_ Hrun]; [|exact Hrun].
    unfold head_at. simpl. eauto.
Defined.

Lemma invalid_probability_raises_witness :
  simulation (E := sample_world) too_fast
    (Some (Method_centered_voltage too_fast)) 0%nat = Raise ValueError.
Proof.
  destruct (centered_voltage_ok (E := sample_world) too_fast
              ltac:(simpl; lia) 0%nat) as (h0 & k & Hcall & Hlen).
  destruct h0 as [|v h0]; [discriminate Hlen|].
  destruct (invalid_probability_raises (E := sample_world) too_fast
              (Method_centered_voltage too_fast) 3 0%nat k (v :: h0) v)
    as (_ & _ & Hsim).
  - apply num_steps_exact; simpl; lra.
  - lia.
  - simpl. lia.
  - exact Hcall.
  - left. reflexivity.
  - simpl. lra.
  - exact Hsim.
Defined.

Lemma update_past_last_row_witness :
  update (E := sample_world) sample one_row 0 [0; 0] [0; 0] 0%nat
  = Raise IndexError.
Proof.
  apply (update_past_last_row (E := sample_world) sample one_row 0 1 2).
  - repeat split; repeat constructor.
  - reflexivity.
  - reflexivity.
  - lia.
  - simpl. lra.
Defined.

Lemma centered_voltage_profile_witness :
  exists v,
    centered_voltage (E := sample_world) sample 5%nat = Ok (v, 5%nat) /\
    length v = 2%nat /\ nth 1 v 0 = nth 0 v 0.
Proof.
  destruct (centered_voltage_profile (E := sample_world) sample 5%nat)
    as [_ Hok].
  destruct (Hok ltac:(simpl; lia)) as (v & Hv & Hlen & _ & _ & Hsym).
  exists v. split; [exact Hv|]. split; [exact Hlen|].
  destruct (Hsym ltac:(simpl; lia) 0%nat ltac:(simpl; lia)) as [_ H].
  exact H.
Defined.

Lemma uniform_voltage_draws_witness :
  exists v k',
    uniform_voltage (E := sample_world) sample 0%nat = Ok (v, k') /\
    length v = 2%nat /\ nth 0 v 0 = / 2.
Proof.
  destruct (uniform_voltage_draws (E := sample_world) sample 0%nat)
    as [_ Hok].
  destruct (Hok ltac:(simpl; lia)) as (v & k' & Hv & Hlen & Hfirst & _).
  exists v, k'. split; [exact Hv|]. split; [exact Hlen|].
  apply Hfirst. simpl. lia.
Defined.

Lemma init_head_rows_witness :
  init 2 1 10 2 1 1 1 0 1 0 0 false 1 (Some head) true = Ok (headed 2) /\
  length (I_head (headed 2)) = length (pop_s head).
Proof.
  split; [apply headed_init|].
  destruct (init_head_rows 2 1 10 2 1 1 1 0 1 0 0 false 1 head true)
    as [_ Hok].
  destruct (Hok (headed 2) (headed_init 2)) as [Hlen _]. exact Hlen.
Defined.

Lemma duration_shorter_than_step_witness :
  num_steps brief = Ok 0%Z /\
  simulation (E := sample_world) brief
    (Some (Method_centered_voltage brief)) 0%nat = Raise IndexError.
Proof.
  destruct (duration_shorter_than_step (E := sample_world) brief
              (Method_centered_voltage brief) 0%nat)
    as [Hns Hrun]; try (simpl; lra).
  split; [exact Hns|].
  destruct Hrun as (_ & _ & Hsim); [simpl; lia| | |exact Hsim].
  - apply sample_world_probabilities. simpl. lra.
  - apply centered_voltage_ok. simpl. lia.
Defined.

Lemma unused_amplitudes_witness :
  I_ext sample = false /\
  run (E := sample_world) (with_I0 sample 7)
    (Method_centered_voltage sample) 0%nat
  = run (E := sample_world) sample (Method_centered_voltage sample) 0%nat.
Proof.
  split; [reflexivity|].
  destruct (unused_amplitudes (E := sample_world) sample
              (Method_centered_voltage sample) 0%nat 7) as [H _].
  exact (H eq_refl).
Defined.

Lemma longer_run_extends_shorter_witness :
  exists a a' k1 k1',
    run (E := sample_world) sample (Method_centered_voltage sample) 0%nat
    = Ok (a, k1) /\
    run (E := sample_world) (with_T sample 5)
      (Method_centered_voltage sample) 0%nat = Ok (a', k1') /\
    nth 2 (hL a') [] = nth 2 (hL a) [].
Proof.
  destruct sample_runs as (a & k1 & Hrun).
  assert (Hns' : num_steps (with_T sample 5) = Ok 5%Z)
    by (apply num_steps_exact; simpl; lra).
  destruct (run_total (E := sample_world) (with_T sample 5)
              (Method_centered_voltage sample) 5 0%nat Hns')
    as (a' & k1' & Hrun');
    try (simpl; lia); try (simpl; lra).
  - apply sample_world_probabilities. simpl. lra.
  - apply (centered_voltage_ok (E := sample_world) sample). simpl. lia.
  - intros t _. unfold head_at. simpl. eauto.
  - exists a, a', k1, k1'. split; [exact Hrun|]. split; [exact Hrun'|].
    pose proof (sample_rows a k1 Hrun) as Hlen.
    pose proof (run_rows _ _ _ _ _ _ Hns' Hrun') as Hlen'.
    apply (longer_run_extends_shorter (E := sample_world) sample 5 _ _ _ _
             _ _ Hrun Hrun').
    + rewrite Hlen, Hlen'. simpl. lia.
    + rewrite Hlen. lia.
Defined.
